(** * Mutex-guarded stores of thread-safety-patterns-masterclass.js

    A shallow embedding of [ThreadSafeCounter], [ThreadSafeCache],
    [ThreadSafeInventory] and [ThreadSafeOperation], followed by the
    properties of the specification that concern them.

    Conventions.
    - An [async] method is a state transformer returning a [completion]:
      the promise fulfils ([Return]), rejects ([Throw]) or never settles
      ([Pending], a caller parked on a mutex nobody releases).
    - Numbers that the code counts with (the counter, stock levels and
      quantities) are integers and are modelled by [Z], on which [+], [-]
      and [<] are those of JavaScript as long as the integers are safe
      ones (below 2^53 in magnitude); operations that merely store a
      number are generic in the number type.
    - A JavaScript [Map] is a [gmap]; [Map.prototype.get] answers
      [undefined] for a missing key, which is a value of the language. *)

From Stdlib Require Import ZArith QArith Qcanon.
From stdpp Require Import base option list gmap strings fin_maps numbers.

Local Open Scope Z_scope.

(** ** Completions and the method monad *)

Inductive completion (E A : Type) : Type :=
  | Return (v : A)
  | Throw (e : E)
  | Pending.
Arguments Return {E A} v.
Arguments Throw {E A} e.
Arguments Pending {E A}.

Definition M (E St A : Type) : Type := St → completion E A * St.

Definition ret {E St A} (v : A) : M E St A := λ s, (Return v, s).

Definition bind {E St A B} (m : M E St A) (k : A → M E St B) : M E St B :=
  λ s, match m s with
       | (Return v, s') => k v s'
       | (Throw e, s') => (Throw e, s')
       | (Pending, s') => (Pending, s')
       end.

Definition throw {E St A} (e : E) : M E St A := λ s, (Throw e, s).

Definition gets {E St A} (f : St → A) : M E St A := λ s, (Return (f s), s).

Definition modify {E St} (f : St → St) : M E St () := λ s, (Return (), f s).

(** The monad is registered with stdpp's classes, which gives the
    notations [x ← m; k] and [m;; k]. *)
Global Instance M_ret {E St} : MRet (M E St) := λ A, ret.
Global Instance M_bind {E St} : MBind (M E St) := λ A B k m, bind m k.

(** [try { body } finally { fin }]: the [finally] block runs after the
    body has completed either way; its own abrupt completion, if any,
    replaces that of the body.  A body that never completes never reaches
    the [finally] block. *)
Definition try_finally {E St A} (body : M E St A) (fin : M E St ()) : M E St A :=
  λ s, match body s with
       | (Pending, s') => (Pending, s')
       | (c, s') =>
           match fin s' with
           | (Return _, s'') => (c, s'')
           | (Throw e, s'') => (Throw e, s'')
           | (Pending, s'') => (Pending, s'')
           end
       end.

(** [try { body } catch (error) { handler error }]. *)
Definition try_catch {E St A} (body : M E St A) (handler : E → M E St A) : M E St A :=
  λ s, match body s with
       | (Throw e, s') => handler e s'
       | r => r
       end.

(** ** The mutex *)

(** Modelled from the spec: the lock primitive, which the source takes
    from the [async-mutex] package and which is therefore not among the
    repository's files.  Section 3 gives it the binary state free / held;
    [acquire] hands the caller the function that releases it and parks the
    caller while the lock is held. *)
Inductive AsyncMutex : Type := Free | Held.

Global Instance AsyncMutex_eq_dec : EqDecision AsyncMutex.
Proof. solve_decision. Defined.

(** The classes keep their mutex in a field; [Guarded] names it. *)
Class Guarded (St : Type) : Type := {
  the_mutex : St → AsyncMutex;
  with_mutex : AsyncMutex → St → St;
}.

Section Mutex.
Context {E St : Type} `{Guarded St}.

Definition release : M E St () := modify (with_mutex Free).

Definition acquire : M E St (M E St ()) :=
  λ s, match the_mutex s with
       | Free => (Return release, with_mutex Held s)
       | Held => (Pending, s)
       end.
End Mutex.

(** Errors thrown by the classes themselves: [new Error(message)]. *)
Inductive JsError : Type := Error (message : string).

Global Instance JsError_eq_dec : EqDecision JsError.
Proof. solve_decision. Defined.

(** ** 2. ThreadSafeCounter *)

Module ThreadSafeCounter.

Record t : Type := mk { counter : Z; mutex : AsyncMutex }.

Global Instance guarded : Guarded t := {|
  the_mutex := mutex;
  with_mutex m c := {| counter := counter c; mutex := m |};
|}.

Definition new : t := {| counter := 0; mutex := Free |}.

(** The [try] block of [increment]. *)
Definition increment_body : M JsError t Z :=
  modify (λ this, {| counter := counter this + 1; mutex := mutex this |});;
  gets counter.

Definition increment : M JsError t Z :=
  release ← acquire;
  try_finally increment_body release.

Definition getValue : M JsError t Z :=
  release ← acquire;
  try_finally (gets counter) release.

End ThreadSafeCounter.

(** ** 4. ThreadSafeCache *)

(** The values a caller may put in the cache.  [VUndefined] is what
    [Map.prototype.get] answers for a key that is not in the map. *)
Inductive value : Type :=
  | VUndefined
  | VNull
  | VBoolean (b : bool)
  | VNumber (n : Z)
  | VString (s : string).

Global Instance value_eq_dec : EqDecision value.
Proof. solve_decision. Defined.

(** [Map.prototype.get], [.set], [.delete] and [.has] on a map of values. *)
Definition Map_get `{Countable K} (m : gmap K value) (key : K) : value :=
  default VUndefined (m !! key).

Definition Map_set `{Countable K} {V} (m : gmap K V) (key : K) (v : V) : gmap K V :=
  <[key := v]> m.

Definition Map_delete `{Countable K} {V} (m : gmap K V) (key : K) : bool * gmap K V :=
  (bool_decide (is_Some (m !! key)), delete key m).

Definition Map_has `{Countable K} {V} (m : gmap K V) (key : K) : bool :=
  bool_decide (is_Some (m !! key)).

Module ThreadSafeCache.
Section defs.
Context `{Countable K}.

Record t : Type := mk { cache : gmap K value; mutex : AsyncMutex }.

Global Instance guarded : Guarded t := {|
  the_mutex := mutex;
  with_mutex m c := {| cache := cache c; mutex := m |};
|}.

Definition new : t := {| cache := ∅; mutex := Free |}.

Definition set (key : K) (v : value) : M JsError t () :=
  release ← acquire;
  try_finally
    (modify (λ this, {| cache := Map_set (cache this) key v; mutex := mutex this |}))
    release.

Definition get (key : K) : M JsError t value :=
  release ← acquire;
  try_finally (gets (λ this, Map_get (cache this) key)) release.

Definition delete (key : K) : M JsError t bool :=
  release ← acquire;
  try_finally
    (existed ← gets (λ this, fst (Map_delete (cache this) key));
     modify (λ this, {| cache := snd (Map_delete (cache this) key);
                        mutex := mutex this |});;
     mret existed)
    release.
End defs.
Arguments t K {_ _}.
End ThreadSafeCache.

(** ** 5. ThreadSafeInventory *)

(** What [reserveStock] needs of a stock level: the literal [0], the
    comparison [<] and the subtraction [-]. *)
Class JsNumber (A : Type) : Type := {
  num_zero : A;
  num_lt : A → A → bool;
  num_sub : A → A → A;
}.

Global Instance Z_JsNumber : JsNumber Z := {|
  num_zero := 0;
  num_lt := Z.ltb;
  num_sub := Z.sub;
|}.

Global Instance Qc_JsNumber : JsNumber Qc := {|
  num_zero := 0%Qc;
  num_lt x y := bool_decide (x < y)%Qc;
  num_sub := Qcminus;
|}.

Module ThreadSafeInventory.
Section defs.
Context `{Countable K} `{JsNumber A}.

Record t : Type := mk { mutex : AsyncMutex; inventory : gmap K A }.

Global Instance guarded : Guarded t := {|
  the_mutex := mutex;
  with_mutex m c := {| mutex := m; inventory := inventory c |};
|}.

Definition new : t := {| mutex := Free; inventory := ∅ |}.

(** [this.inventory.get(productId) ?? 0] *)
Definition stock_of (this : t) (productId : K) : A :=
  default num_zero (inventory this !! productId).

Definition initializeProduct (productId : K) (initialStock : A) : M JsError t () :=
  release ← acquire;
  try_finally
    (modify (λ this, {| mutex := mutex this;
                        inventory := Map_set (inventory this) productId initialStock |}))
    release.

Definition reserveStock_body (productId : K) (quantity : A) : M JsError t bool :=
  currentStock ← gets (λ this, stock_of this productId);
  if num_lt currentStock quantity
  then throw (Error "Insufficient stock")
  else
    modify (λ this, {| mutex := mutex this;
                       inventory := Map_set (inventory this) productId
                                      (num_sub currentStock quantity) |});;
    mret true.

Definition reserveStock (productId : K) (quantity : A) : M JsError t bool :=
  release ← acquire;
  try_finally (reserveStock_body productId quantity) release.

Definition getStock (productId : K) : M JsError t A :=
  release ← acquire;
  try_finally (gets (λ this, stock_of this productId)) release.
End defs.
Arguments t K {_ _} A.
End ThreadSafeInventory.

(** ** 6. ThreadSafeOperation *)

Module ThreadSafeOperation.
Section defs.
(** [E] is whatever the caller's operation may throw, [W] whatever it
    may read and write. *)
Context {E W : Type}.

Record t : Type := mk { mutex : AsyncMutex }.

(** The object together with what lies outside it: the caller's own
    state and the lines written by [console.error]. *)
Record env : Type := mkEnv {
  this : t;
  world : W;
  console : list (string * E);
}.

Global Instance guarded : Guarded env := {|
  the_mutex e := mutex (this e);
  with_mutex m e := {| this := {| mutex := m |}; world := world e;
                       console := console e |};
|}.

Definition new (w : W) : env :=
  {| this := {| mutex := Free |}; world := w; console := [] |}.

(** [operation()] runs on the caller's state only. *)
Definition call {A} (operation : M E W A) : M E env A :=
  λ e, let '(c, w') := operation (world e) in
       (c, {| this := this e; world := w'; console := console e |}).

Definition console_error (label : string) (error : E) : M E env () :=
  modify (λ e, {| this := this e; world := world e;
                  console := console e ++ [(label, error)] |}).

Definition execute {A} (operation : M E W A) : M E env A :=
  release ← acquire;
  try_finally
    (try_catch (call operation)
       (λ error, console_error "Thread-safe operation failed:" error;;
                 throw error))
    release.
End defs.
Arguments t : clear implicits.
Arguments env : clear implicits.
End ThreadSafeOperation.

(** ** 1. unsafeIncrement *)

(** The unguarded counter of the first example: each call reads the
    shared counter, sleeps, and only then writes back what it read plus
    one.  Calls are interleaved at the [await]. *)
Module UnsafeIncrement.

Inductive pc : Type :=
  | Start                   (* line 15: const current = sharedCounter *)
  | Sleeping (current : Z)  (* line 16: await ... setTimeout *)
  | Done (result : Z).      (* line 18: return sharedCounter *)

Record world : Type := mk { sharedCounter : Z; tasks : list pc }.

Definition step (i : nat) (w : world) : option world :=
  match tasks w !! i with
  | Some Start =>
      Some {| sharedCounter := sharedCounter w;
              tasks := <[i := Sleeping (sharedCounter w)]> (tasks w) |}
  | Some (Sleeping current) =>
      Some {| sharedCounter := current + 1;
              tasks := <[i := Done (current + 1)]> (tasks w) |}
  | Some (Done _) | None => None
  end.

Fixpoint exec (schedule : list nat) (w : world) : option world :=
  match schedule with
  | [] => Some w
  | i :: rest => match step i w with Some w' => exec rest w' | None => None end
  end.

Definition init (n : nat) : world :=
  {| sharedCounter := 0; tasks := replicate n Start |}.

End UnsafeIncrement.

(** ** Interleaved calls of [ThreadSafeCounter.increment] *)

(** Each call is followed statement by statement; the read and the write
    of [this.counter += 1] are separate steps.  A schedule names, step by
    step, the call that moves next.  A call waiting for the mutex can
    move only when [acquire] grants it the lock. *)
Module Increments.

Inductive pc : Type :=
  | Waiting                 (* line 31: await this.mutex.acquire() *)
  | Load                    (* line 33: read this.counter *)
  | Store (current : Z)     (* line 33: write current + 1 *)
  | Result                  (* line 34: read this.counter to return it *)
  | Releasing (result : Z)  (* line 36: release() *)
  | Done (result : Z).      (* the promise has fulfilled with result *)

Record world : Type := mk { shared : ThreadSafeCounter.t; tasks : list pc }.

Definition step (i : nat) (w : world) : option world :=
  match tasks w !! i with
  | Some Waiting =>
      match acquire (E := JsError) (shared w) with
      | (Return _, c) => Some {| shared := c; tasks := <[i := Load]> (tasks w) |}
      | _ => None
      end
  | Some Load =>
      Some {| shared := shared w;
              tasks := <[i := Store (ThreadSafeCounter.counter (shared w))]> (tasks w) |}
  | Some (Store current) =>
      Some {| shared := {| ThreadSafeCounter.counter := current + 1;
                           ThreadSafeCounter.mutex :=
                             ThreadSafeCounter.mutex (shared w) |};
              tasks := <[i := Result]> (tasks w) |}
  | Some Result =>
      Some {| shared := shared w;
              tasks := <[i := Releasing (ThreadSafeCounter.counter (shared w))]>
                         (tasks w) |}
  | Some (Releasing result) =>
      Some {| shared := snd (release (E := JsError) (shared w));
              tasks := <[i := Done result]> (tasks w) |}
  | Some (Done _) | None => None
  end.

Fixpoint exec (schedule : list nat) (w : world) : option world :=
  match schedule with
  | [] => Some w
  | i :: rest => match step i w with Some w' => exec rest w' | None => None end
  end.

(** [n] calls issued against a fresh counter. *)
Definition init (n : nat) : world :=
  {| shared := ThreadSafeCounter.new; tasks := replicate n Waiting |}.

Definition is_done (p : pc) : bool :=
  match p with Done _ => true | _ => false end.

Definition all_done (w : world) : bool := forallb is_done (tasks w).

(** Bookkeeping for the proofs: calls inside the critical section, calls
    whose write has happened, and statements a call has yet to run. *)
Definition holding (p : pc) : nat :=
  match p with Load | Store _ | Result | Releasing _ => 1 | _ => 0 end.

Definition written (p : pc) : nat :=
  match p with Result | Releasing _ | Done _ => 1 | _ => 0 end.


(** What every reachable world satisfies: the lock is held exactly when
    one call is inside the critical section, the counter has counted the
    writes, and a call about to write has read the current counter. *)
Record invariant (w : world) : Prop := {
  inv_lock :
    sum_list_with holding (tasks w)
    = match ThreadSafeCounter.mutex (shared w) with Held => 1%nat | Free => 0%nat end;
  inv_count :
    ThreadSafeCounter.counter (shared w) = Z.of_nat (sum_list_with written (tasks w));
  inv_store :
    ∀ i current, tasks w !! i = Some (Store current) →
                 current = ThreadSafeCounter.counter (shared w);
}.

End Increments.

(** ** Interleaved calls on any guarded store *)

(** As the event loop runs them: a call is queued on the mutex, is
    let in when [acquire] grants the lock, and then runs its critical
    section and the [finally] block in one turn, there being no [await]
    between the two. *)
Module Scheduler.
Section defs.
Context {E St A : Type} `{Guarded St}.

Inductive status : Type :=
  | Queued
  | Granted (release : M E St ())
  | Settled (c : completion E A).

Record world : Type := mk { store : St; tasks : list status }.

(** The critical sections of the calls, in the order of issue. *)
Variable bodies : list (M E St A).

Definition step (i : nat) (w : world) : option world :=
  match bodies !! i, tasks w !! i with
  | Some body, Some Queued =>
      match acquire (store w) with
      | (Return release, s) =>
          Some {| store := s; tasks := <[i := Granted release]> (tasks w) |}
      | _ => None
      end
  | Some body, Some (Granted release) =>
      let '(c, s) := try_finally body release (store w) in
      Some {| store := s; tasks := <[i := Settled c]> (tasks w) |}
  | _, _ => None
  end.

Fixpoint exec (schedule : list nat) (w : world) : option world :=
  match schedule with
  | [] => Some w
  | i :: rest => match step i w with Some w' => exec rest w' | None => None end
  end.

Definition init (s : St) : world :=
  {| store := s; tasks := replicate (length bodies) Queued |}.

Definition is_settled (t : status) : bool :=
  match t with Settled _ => true | _ => false end.

Definition all_settled (w : world) : bool := forallb is_settled (tasks w).

(** The same calls run one at a time: call [i] is awaited as a whole,
    the way the methods are written. *)
Definition serve (i : nat) (w : world) : option world :=
  match bodies !! i, tasks w !! i with
  | Some body, Some Queued =>
      let '(c, s) := (release ← acquire; try_finally body release) (store w) in
      Some {| store := s; tasks := <[i := Settled c]> (tasks w) |}
  | _, _ => None
  end.

Fixpoint serial (order : list nat) (w : world) : option world :=
  match order with
  | [] => Some w
  | i :: rest => match serve i w with Some w' => serial rest w' | None => None end
  end.

(** Between two calls: nobody has been granted the lock and not yet run. *)
Definition between_calls (w : world) : Prop :=
  Forall (λ t, ∀ release, t ≠ Granted release) (tasks w).

Definition quiet (w : world) : Prop :=
  the_mutex (store w) = Free ∧ between_calls w.
End defs.
Arguments status : clear implicits.
Arguments world : clear implicits.
End Scheduler.

(** ** Sequences of inventory calls *)

(** A caller that issues inventory calls one after the other, awaiting
    each and catching what it throws. *)
Module Calls.
Section defs.
Context `{Countable K}.

Inductive call : Type :=
  | InitializeProduct (productId : K) (initialStock : Z)
  | ReserveStock (productId : K) (quantity : Z)
  | GetStock (productId : K).

Definition perform (c : call) : M JsError (ThreadSafeInventory.t K Z) value :=
  match c with
  | InitializeProduct productId initialStock =>
      ThreadSafeInventory.initializeProduct productId initialStock;;
      mret VUndefined
  | ReserveStock productId quantity =>
      ok ← ThreadSafeInventory.reserveStock productId quantity;
      mret (VBoolean ok)
  | GetStock productId =>
      n ← ThreadSafeInventory.getStock productId;
      mret (VNumber n)
  end.

Fixpoint run (calls : list call) (s : ThreadSafeInventory.t K Z)
  : list (completion JsError value) * ThreadSafeInventory.t K Z :=
  match calls with
  | [] => ([], s)
  | c :: rest =>
      let '(out, s') := perform c s in
      let '(outs, s'') := run rest s' in
      (out :: outs, s'')
  end.



End defs.
Arguments call K : clear implicits.
End Calls.

(** ** 3. WorkerThreadCounter *)

Module WorkerThreadCounter.

(** The worker's side (lines 68-76): its private counter, and what it
    has posted to the parent port so far, oldest first. *)
Record worker_side : Type := mkWorker { safeCounter : Z; to_parent : list value }.

Definition worker_start : worker_side := {| safeCounter := 0; to_parent := [] |}.

(** The ['message'] listener of the worker. *)
Definition on_message (message : value) (w : worker_side) : worker_side :=
  if decide (message = VString "INCREMENT")
  then {| safeCounter := safeCounter w + 1;
          to_parent := to_parent w ++ [VNumber (safeCounter w + 1)] |}
  else w.

(** The worker's event loop hands it the messages in the order of
    arrival. *)
Definition worker_receive (inbox : list value) (w : worker_side) : worker_side :=
  foldl (λ w message, on_message message w) w inbox.

(** The main thread's side.  [this.worker] exists only when the object
    was constructed on the main thread; it is represented by what has
    been posted to it.  Calling a method of [undefined] is a
    [TypeError]. *)
Inductive thrown : Type := TypeError.

Record t : Type := mk { worker : option (list value) }.

Definition new (isMainThread : bool) : t :=
  if isMainThread then {| worker := Some [] |} else {| worker := None |}.

Definition increment : M thrown t () :=
  λ this, match worker this with
          | Some posted => (Return (), {| worker := Some (posted ++ [VString "INCREMENT"]) |})
          | None => (Throw TypeError, this)
          end.

(** The ['message'] listener of the main thread: one [console.log] line
    per count received. *)
Definition on_count (console : list (string * value)) (count : value)
  : list (string * value) :=
  console ++ [("Current count:"%string, count)].

(** [n] calls of a method in a row, stopping at the first that throws. *)
Fixpoint repeat_call {E St} (n : nat) (m : M E St ()) : M E St () :=
  match n with
  | O => mret ()
  | S n' => m;; repeat_call n' m
  end.

End WorkerThreadCounter.

(** ** Sequences and interleavings of cache calls *)

Module CacheCalls.
Section defs.
Context `{Countable K}.

Inductive call : Type :=
  | CacheSet (key : K) (v : value)
  | CacheGet (key : K)
  | CacheDelete (key : K).

(** What the awaiting caller sees: [set] resolves to [undefined]. *)
Definition perform (c : call) : M JsError (ThreadSafeCache.t K) value :=
  match c with
  | CacheSet key v => ThreadSafeCache.set key v;; mret VUndefined
  | CacheGet key => ThreadSafeCache.get key
  | CacheDelete key => existed ← ThreadSafeCache.delete key; mret (VBoolean existed)
  end.

(** The [try] blocks of the three methods. *)
Definition body (c : call) : M JsError (ThreadSafeCache.t K) value :=
  match c with
  | CacheSet key v =>
      modify (λ this, {| ThreadSafeCache.cache := Map_set (ThreadSafeCache.cache this) key v;
                         ThreadSafeCache.mutex := ThreadSafeCache.mutex this |});;
      mret VUndefined
  | CacheGet key => gets (λ this, Map_get (ThreadSafeCache.cache this) key)
  | CacheDelete key =>
      existed ← gets (λ this, fst (Map_delete (ThreadSafeCache.cache this) key));
      modify (λ this, {| ThreadSafeCache.cache :=
                           snd (Map_delete (ThreadSafeCache.cache this) key);
                         ThreadSafeCache.mutex := ThreadSafeCache.mutex this |});;
      mret (VBoolean existed)
  end.
End defs.
Arguments call K : clear implicits.
End CacheCalls.

(** ** Bookkeeping for interleaved reservations and increments *)

Module Reservations.
Section defs.
Context `{Countable K}.


End defs.
End Reservations.

Module IncrementResults.




End IncrementResults.

Module UnsafeCounts.

Definition is_done (p : UnsafeIncrement.pc) : bool :=
  match p with UnsafeIncrement.Done _ => true | _ => false end.

Definition all_done (w : UnsafeIncrement.world) : bool :=
  forallb is_done (UnsafeIncrement.tasks w).

Definition completed (p : UnsafeIncrement.pc) : nat :=
  if is_done p then 1 else 0.

(** What every reachable world of [unsafeIncrement] calls satisfies: the
    counter and every value read from it lie between 0 and the number of
    calls that have completed, and the counter is positive as soon as one
    has. *)
Record invariant (w : UnsafeIncrement.world) : Prop := {
  inv_counter :
    0 ≤ UnsafeIncrement.sharedCounter w
    ≤ Z.of_nat (sum_list_with completed (UnsafeIncrement.tasks w));
  inv_positive :
    (0 < sum_list_with completed (UnsafeIncrement.tasks w))%nat →
    1 ≤ UnsafeIncrement.sharedCounter w;
  inv_read :
    ∀ i current, UnsafeIncrement.tasks w !! i = Some (UnsafeIncrement.Sleeping current) →
                 0 ≤ current ≤ Z.of_nat (sum_list_with completed (UnsafeIncrement.tasks w));
}.

End UnsafeCounts.

(** * Properties *)

(** ** Running one method on a store whose lock is free *)

Import ThreadSafeCounter ThreadSafeCache ThreadSafeInventory ThreadSafeOperation.

Example counter_three_increments :
  (ThreadSafeCounter.increment;; ThreadSafeCounter.increment;;
   ThreadSafeCounter.increment;; ThreadSafeCounter.getValue)
    ThreadSafeCounter.new
  = (Return 3, {| counter := 3; ThreadSafeCounter.mutex := Free |}).
Proof. reflexivity. Qed.


(** C7.  The three reading methods return what the store holds (for a
    product or key that is missing: [0], respectively [undefined]) and
    leave the store exactly as they found it, lock included. *)
Theorem read_only_methods_leave_store_unchanged :
  (∀ c : ThreadSafeCounter.t,
     ThreadSafeCounter.mutex c = Free → getValue c = (Return (counter c), c)) ∧
  (∀ `{Countable K} (c : ThreadSafeCache.t K) (key : K),
     ThreadSafeCache.mutex c = Free →
     get key c = (Return (Map_get (cache c) key), c)) ∧
  (∀ `{Countable K} `{JsNumber A} (i : ThreadSafeInventory.t K A) (productId : K),
     ThreadSafeInventory.mutex i = Free →
     getStock productId i = (Return (default num_zero (inventory i !! productId)), i)).
Proof.
  split; [|split].
  - intros [n m] Hm; simpl in Hm; subst m. reflexivity.
  - intros K ? ? [m l] key Hl; simpl in Hl; subst l. reflexivity.
  - intros K ? ? A ? [l inv] p Hl; simpl in Hl; subst l. reflexivity.
Qed.

Lemma read_only_methods_leave_store_unchanged_witness :
  getValue {| counter := 7; ThreadSafeCounter.mutex := Free |}
  = (Return 7, {| counter := 7; ThreadSafeCounter.mutex := Free |}) ∧
  get "key1" {| cache := {["key1" := VString "value1"]}; ThreadSafeCache.mutex := Free |}
  = (Return (VString "value1"),
     {| cache := {["key1" := VString "value1"]}; ThreadSafeCache.mutex := Free |}) ∧
  getStock "PROD-2" {| ThreadSafeInventory.mutex := Free; inventory := {["PROD-1" := 100]} |}
  = (Return 0,
     {| ThreadSafeInventory.mutex := Free; inventory := {["PROD-1" := 100]} |}).
Proof.
  destruct read_only_methods_leave_store_unchanged as (Hc & Hg & Hs).
  split; [|split].
  - apply (Hc {| counter := 7; ThreadSafeCounter.mutex := Free |}). reflexivity.
  - refine (eq_trans (Hg string _ _
             {| cache := {["key1" := VString "value1"]}; ThreadSafeCache.mutex := Free |}
             "key1" eq_refl) _).
    vm_compute. reflexivity.
  - refine (eq_trans (Hs string _ _ Z _
             {| ThreadSafeInventory.mutex := Free; inventory := {["PROD-1" := 100]} |}
             "PROD-2" eq_refl) _).
    vm_compute. reflexivity.
Defined.

(** ** The inventory, one call at a time *)

Lemma reserveStock_unfold `{Countable K} (inv : gmap K Z) (productId : K) (qty : Z) :
  reserveStock productId qty {| ThreadSafeInventory.mutex := Free; inventory := inv |}
  = if default 0 (inv !! productId) <? qty
    then (Throw (Error "Insufficient stock"),
          {| ThreadSafeInventory.mutex := Free; inventory := inv |})
    else (Return true,
          {| ThreadSafeInventory.mutex := Free;
             inventory := <[productId := default 0 (inv !! productId) - qty]> inv |}).
Proof.
  unfold reserveStock, reserveStock_body, mbind, M_bind, bind, try_finally,
    acquire, release, gets, modify, throw, stock_of; simpl.
  destruct (default 0 (inv !! productId) <? qty); reflexivity.
Qed.



(** C9.  [initializeProduct] checks nothing: for every number type, every
    stock level of that type (negative and fractional ones alike) and
    every inventory, it succeeds and leaves the product at exactly that
    level, whatever the product held before; other products are not
    touched. *)
Theorem initializeProduct_stores_whatever_it_is_given `{Countable K} `{JsNumber A}
    (inv : gmap K A) (productId : K) (initialStock : A) :
  initializeProduct productId initialStock
    {| ThreadSafeInventory.mutex := Free; inventory := inv |}
  = (Return (),
     {| ThreadSafeInventory.mutex := Free;
        inventory := <[productId := initialStock]> inv |})
  ∧ <[productId := initialStock]> inv !! productId = Some initialStock
  ∧ ∀ other, other ≠ productId →
      <[productId := initialStock]> inv !! other = inv !! other.
Proof.
  split; [reflexivity | split].
  - apply lookup_insert_eq.
  - intros other Hne. apply lookup_insert_ne. congruence.
Qed.

Lemma initializeProduct_stores_whatever_it_is_given_witness :
  initializeProduct "PROD-1" (-5)
    {| ThreadSafeInventory.mutex := Free; inventory := {["PROD-1" := 100]} |}
  = (Return (),
     {| ThreadSafeInventory.mutex := Free;
        inventory := <["PROD-1" := -5]> {["PROD-1" := 100]} |})
  ∧ ("PROD-2" ≠ "PROD-1" →
     <["PROD-1" := -5]> ({["PROD-1" := 100]} : gmap string Z) !! "PROD-2"
     = ({["PROD-1" := 100]} : gmap string Z) !! "PROD-2").
Proof.
  destruct (initializeProduct_stores_whatever_it_is_given
              ({["PROD-1" := 100]} : gmap string Z) "PROD-1" (-5)) as (Hcall & _ & Hother).
  split; [exact Hcall | exact (Hother "PROD-2")].
Defined.

Example initializeProduct_negative_overwrites :
  (initializeProduct "PROD-1" (-5);; getStock "PROD-1")
    {| ThreadSafeInventory.mutex := Free; inventory := {["PROD-1" := 100]} |}
  = (Return (-5),
     {| ThreadSafeInventory.mutex := Free; inventory := {["PROD-1" := -5]} |}).
Proof. vm_compute. reflexivity. Qed.

Example initializeProduct_fraction :
  fst ((initializeProduct "PROD-1" (Q2Qc (1 # 2));; getStock "PROD-1")
         (ThreadSafeInventory.new (K := string) (A := Qc)))
  = Return (Q2Qc (1 # 2)).
Proof. reflexivity. Qed.

(** C10.  Reserving nothing of a product the inventory does not know
    succeeds, and it leaves a new entry behind: the product now maps to
    [0], so the inventory is no longer the one the call started from. *)
Theorem reserveStock_zero_of_unknown_product_inserts_it `{Countable K}
    (inv : gmap K Z) (productId : K) :
  inv !! productId = None →
  reserveStock productId 0 {| ThreadSafeInventory.mutex := Free; inventory := inv |}
  = (Return true,
     {| ThreadSafeInventory.mutex := Free; inventory := <[productId := 0]> inv |})
  ∧ <[productId := 0]> inv !! productId = Some 0
  ∧ <[productId := 0]> inv ≠ inv.
Proof.
  intros Habsent. rewrite reserveStock_unfold, Habsent. simpl.
  split; [reflexivity | split].
  - apply lookup_insert_eq.
  - intros Heq. rewrite <- Heq, lookup_insert_eq in Habsent. discriminate.
Qed.

Lemma reserveStock_zero_of_unknown_product_inserts_it_witness :
  reserveStock "PROD-9" 0
    {| ThreadSafeInventory.mutex := Free; inventory := {["PROD-1" := 3]} |}
  = (Return true,
     {| ThreadSafeInventory.mutex := Free;
        inventory := <["PROD-9" := 0]> {["PROD-1" := 3]} |}).
Proof.
  apply (reserveStock_zero_of_unknown_product_inserts_it {["PROD-1" := 3]} "PROD-9").
  vm_compute. reflexivity.
Defined.

(** ** The cache *)

Example cache_set_then_get :
  (ThreadSafeCache.set "key1" (VString "value1");; get "key1")
    (ThreadSafeCache.new (K := string))
  = (Return (VString "value1"),
     {| cache := {["key1" := VString "value1"]}; ThreadSafeCache.mutex := Free |}).
Proof. vm_compute. reflexivity. Qed.

(** C5, as stated, fails: [set] accepts [undefined] like any other value,
    and a key holding it reads back exactly as a key that is missing. *)
Lemma cache_get_cannot_tell_missing_from_stored_undefined :
  let c := snd (ThreadSafeCache.set "k" VUndefined (ThreadSafeCache.new (K := string))) in
  Map_has (cache c) "k" = true ∧
  Map_has (cache c) "missing" = false ∧
  fst (get "missing" c) = fst (get "k" c).
Proof. vm_compute. auto. Qed.

(** C5, amended.  For a key that is missing, [get] answers [undefined]
    and nothing else, and leaves the cache as it was; that answer differs
    from what [get] gives for every key whose stored value is not
    [undefined] itself. *)
Theorem cache_get_missing_key_is_undefined `{Countable K}
    (m : gmap K value) (key : K) :
  m !! key = None →
  get key {| cache := m; ThreadSafeCache.mutex := Free |}
  = (Return VUndefined, {| cache := m; ThreadSafeCache.mutex := Free |})
  ∧ ∀ (present : K) (v : value),
      m !! present = Some v → v ≠ VUndefined →
      fst (get present {| cache := m; ThreadSafeCache.mutex := Free |})
      ≠ fst (get key {| cache := m; ThreadSafeCache.mutex := Free |}).
Proof.
  intros Hkey.
  assert (Hget : ∀ k, get k {| cache := m; ThreadSafeCache.mutex := Free |}
                      = (Return (default VUndefined (m !! k)),
                         {| cache := m; ThreadSafeCache.mutex := Free |}))
    by reflexivity.
  split.
  - rewrite Hget, Hkey. reflexivity.
  - intros present v Hv Hdef. rewrite !Hget, Hv, Hkey. simpl. congruence.
Qed.

Lemma cache_get_missing_key_is_undefined_witness :
  get "missing" {| cache := {["key1" := VString "value1"]}; ThreadSafeCache.mutex := Free |}
  = (Return VUndefined,
     {| cache := {["key1" := VString "value1"]}; ThreadSafeCache.mutex := Free |}).
Proof.
  apply (cache_get_missing_key_is_undefined {["key1" := VString "value1"]} "missing").
  vm_compute. reflexivity.
Defined.

(** ** Errors and the lock *)

(** Every method has the shape [acquire], [try] body [finally] release.
    Started with the lock free, it ends with the lock free and with the
    completion of its body, whichever that is. *)
Lemma acquire_then {E St A} `{Guarded St} (k : M E St () → M E St A) (s : St) :
  the_mutex s = Free →
  (release ← acquire; k release) s = k release (with_mutex Held s).
Proof. intros Hfree. unfold mbind, M_bind, bind, acquire. by rewrite Hfree. Qed.

Lemma try_finally_release {E St A} `{Guarded St} (body : M E St A) (s : St) :
  try_finally body release s
  = match body s with
    | (Pending, s') => (Pending, s')
    | (c, s') => (c, with_mutex Free s')
    end.
Proof.
  unfold try_finally, release, modify.
  destruct (body s) as [[v|e|] s']; reflexivity.
Qed.

Lemma acquire_try_finally_release {E St A} `{Guarded St} (body : M E St A) (s : St) :
  the_mutex s = Free →
  (release ← acquire; try_finally body release) s
  = match body (with_mutex Held s) with
    | (Pending, s') => (Pending, s')
    | (c, s') => (c, with_mutex Free s')
    end.
Proof.
  intros Hfree.
  by rewrite (acquire_then (λ release, try_finally body release)), try_finally_release.
Qed.

(** C4.  An error thrown by the operation handed to [execute], or by the
    stock check of [reserveStock], reaches the caller as the very value
    that was thrown; the lock is free afterwards, and the next call on the
    same object goes through. *)
Theorem thrown_error_reaches_caller_and_lock_is_released :
  (∀ (E W A : Type) (operation : M E W A) (w w' : W) (log : list (string * E)) (e : E),
     operation w = (Throw e, w') →
     let after := {| this := {| ThreadSafeOperation.mutex := Free |}; world := w';
                     console := log ++ [("Thread-safe operation failed:"%string, e)] |} in
     execute operation
       {| this := {| ThreadSafeOperation.mutex := Free |}; world := w; console := log |}
     = (Throw e, after)
     ∧ ∀ (B : Type) (next : M E W B) (v : B) (w'' : W),
         next w' = (Return v, w'') →
         execute next after
         = (Return v, {| this := {| ThreadSafeOperation.mutex := Free |}; world := w'';
                         console := console after |})) ∧
  (∀ `{Countable K} (inv : gmap K Z) (productId : K) (qty : Z)
     (e : JsError) (held : ThreadSafeInventory.t K Z),
     reserveStock_body productId qty
       {| ThreadSafeInventory.mutex := Held; inventory := inv |} = (Throw e, held) →
     let after := {| ThreadSafeInventory.mutex := Free; inventory := inv |} in
     reserveStock productId qty {| ThreadSafeInventory.mutex := Free; inventory := inv |}
     = (Throw e, after)
     ∧ getStock productId after = (Return (default 0 (inv !! productId)), after)
     ∧ reserveStock productId (default 0 (inv !! productId)) after
       = (Return true,
          {| ThreadSafeInventory.mutex := Free; inventory := <[productId := 0]> inv |})).
Proof.
  split.
  - intros E W A operation w w' log e Hop after. split.
    + unfold execute. rewrite acquire_try_finally_release by reflexivity.
      unfold try_catch, call, mbind, M_bind, bind, console_error, modify, throw; simpl.
      rewrite Hop. reflexivity.
    + intros B next v w'' Hnext.
      unfold execute. rewrite acquire_try_finally_release by reflexivity.
      unfold try_catch, call; simpl. rewrite Hnext. reflexivity.
  - intros K ? ? inv productId qty e held Hbody after. subst after.
    split; [|split].
    + unfold reserveStock. rewrite acquire_try_finally_release by reflexivity.
      simpl. rewrite Hbody.
      revert Hbody.
      unfold reserveStock_body, mbind, M_bind, bind, gets, modify, throw, stock_of; simpl.
      destruct (default 0 (inv !! productId) <? qty); intros [= <- <-]. reflexivity.
    + reflexivity.
    + rewrite reserveStock_unfold, Z.ltb_irrefl, Z.sub_diag. reflexivity.
Qed.

Lemma thrown_error_reaches_caller_and_lock_is_released_witness :
  execute (E := nat * string) (W := nat) (A := Z) (λ w, (Throw (1%nat, "boom"%string), S w))
    {| this := {| ThreadSafeOperation.mutex := Free |}; world := 0%nat; console := [] |}
  = (Throw (1%nat, "boom"%string),
     {| this := {| ThreadSafeOperation.mutex := Free |}; world := 1%nat;
        console := [("Thread-safe operation failed:"%string, (1%nat, "boom"%string))] |})
  ∧
  reserveStock "PROD-1" 5
    {| ThreadSafeInventory.mutex := Free; inventory := {["PROD-1" := 3]} |}
  = (Throw (Error "Insufficient stock"),
     {| ThreadSafeInventory.mutex := Free; inventory := {["PROD-1" := 3]} |}).
Proof.
  destruct thrown_error_reaches_caller_and_lock_is_released as [Hexec Hres].
  split.
  - apply (Hexec (nat * string)%type nat Z
             (λ w, (Throw (1%nat, "boom"%string), S w)) 0%nat 1%nat []
             (1%nat, "boom"%string)).
    reflexivity.
  - apply (Hres string _ _ {["PROD-1" := 3]} "PROD-1" 5 (Error "Insufficient stock")
             {| ThreadSafeInventory.mutex := Held; inventory := {["PROD-1" := 3]} |}).
    vm_compute. reflexivity.
Defined.

(** ** The inventory, call after call *)

Import Calls.

Section CallSequences.
Context `{Countable K}.

Abbreviation free inv := {| ThreadSafeInventory.mutex := Free; inventory := inv |}.
Abbreviation stock inv p := (default 0 (inv !! p)).

Lemma perform_unfold (c : call K) (inv : gmap K Z) :
  perform c (free inv)
  = match c with
    | InitializeProduct p initialStock =>
        (Return VUndefined, free (<[p := initialStock]> inv))
    | ReserveStock p quantity =>
        if stock inv p <? quantity
        then (Throw (Error "Insufficient stock"), free inv)
        else (Return (VBoolean true), free (<[p := stock inv p - quantity]> inv))
    | GetStock p => (Return (VNumber (stock inv p)), free inv)
    end.
Proof.
  destruct c as [p s|p q|p]; try reflexivity.
  unfold perform, mbind, M_bind, bind. rewrite reserveStock_unfold.
  destruct (stock inv p <? q); reflexivity.
Qed.


Lemma run_cons (c : call K) (rest : list (call K)) (s : ThreadSafeInventory.t K Z) :
  run (c :: rest) s
  = (fst (perform c s) :: fst (run rest (snd (perform c s))),
     snd (run rest (snd (perform c s)))).
Proof.
  simpl. destruct (perform c s) as [out s']. simpl.
  destruct (run rest s') as [outs s'']. reflexivity.
Qed.








End CallSequences.



(** ** Interleavings of the counter *)

Section ListSums.
Context {A : Type} (f : A → nat).

Lemma sum_list_with_insert (l : list A) (i : nat) (x y : A) :
  l !! i = Some x →
  (sum_list_with f (<[i := y]> l) + f x = sum_list_with f l + f y)%nat.
Proof.
  revert i. induction l as [|a l IH]; intros [|i] Hi; simplify_eq/=; [lia|].
  specialize (IH i Hi). lia.
Qed.



Lemma sum_list_with_replicate (n : nat) (x : A) :
  sum_list_with f (replicate n x) = (n * f x)%nat.
Proof. induction n as [|n IH]; simpl; [done|]. by rewrite IH. Qed.
End ListSums.

Section Interleavings.
Import Increments.




End Interleavings.

Section Progress.
Import Increments.






End Progress.



(** Without the mutex the same three statements lose an update: two calls
    of [unsafeIncrement] that both read before either writes leave the
    shared counter at 1. *)
Example unsafeIncrement_loses_an_update :
  UnsafeIncrement.exec [0; 1; 0; 1]%nat (UnsafeIncrement.init 2)
  = Some {| UnsafeIncrement.sharedCounter := 1;
            UnsafeIncrement.tasks := [UnsafeIncrement.Done 1; UnsafeIncrement.Done 1] |}.
Proof. reflexivity. Qed.

(** ** Interleavings on any guarded store *)

Section Serializable.
Import Scheduler.
Context {E St A : Type} `{Guarded St}.
Hypothesis the_with_mutex : ∀ m (s : St), the_mutex (with_mutex m s) = m.
Variable bodies : list (M E St A).

Lemma held_is_stuck (j : nat) (w : world E St A) :
  the_mutex (store w) = Held → between_calls w → step bodies j w = None.
Proof.
  intros Hheld Hbetween. unfold step.
  destruct (bodies !! j) as [body|]; [|done].
  destruct (tasks w !! j) as [[|r|c]|] eqn:Hj; try done.
  - unfold acquire. by rewrite Hheld.
  - by destruct (Forall_lookup_1 _ _ _ _ Hbetween Hj r).
Qed.

(** From a quiet world a step can only grant the lock to a queued call. *)
Lemma step_grants (i : nat) (w w1 : world E St A) :
  quiet w → step bodies i w = Some w1 →
  ∃ body, bodies !! i = Some body ∧ tasks w !! i = Some Queued
          ∧ w1 = {| store := with_mutex Held (store w);
                    tasks := <[i := Granted release]> (tasks w) |}.
Proof.
  intros [Hfree Hbetween]. unfold step.
  destruct (bodies !! i) as [body|]; [|done].
  destruct (tasks w !! i) as [[|r|c]|] eqn:Hi; try done.
  - unfold acquire. rewrite Hfree. intros [= <-]. by exists body.
  - by destruct (Forall_lookup_1 _ _ _ _ Hbetween Hi r).
Qed.

(** While a call holds the lock, it is the only one that can move, and its
    move completes what [serve] does in one go. *)
Lemma step_runs_the_granted
    (i j : nat) (body : M E St A) (w w2 : world E St A) :
  quiet w → bodies !! i = Some body → tasks w !! i = Some Queued →
  step bodies j {| store := with_mutex Held (store w);
                   tasks := <[i := Granted release]> (tasks w) |} = Some w2 →
  j = i ∧ serve bodies i w = Some w2.
Proof.
  intros [Hfree Hbetween] Hbody Hi. unfold step, serve. simpl.
  destruct (decide (j = i)) as [->|Hne].
  - rewrite Hbody, Hi, list_lookup_insert_eq by by eapply lookup_lt_Some.
    rewrite (acquire_then (λ release, try_finally body release)) by done.
    destruct (try_finally body release (with_mutex Held (store w))) as [c s].
    rewrite list_insert_insert_eq. by intros [= <-].
  - rewrite list_lookup_insert_ne by done.
    destruct (bodies !! j) as [body'|]; [|done].
    destruct (tasks w !! j) as [[|r|c]|] eqn:Hj; try done.
    + unfold acquire. by rewrite the_with_mutex.
    + by destruct (Forall_lookup_1 _ _ _ _ Hbetween Hj r).
Qed.

Lemma serve_between_calls (i : nat) (w w2 : world E St A) :
  between_calls w → serve bodies i w = Some w2 → between_calls w2.
Proof.
  intros Hbetween. unfold serve.
  destruct (bodies !! i) as [body|]; [|done].
  destruct (tasks w !! i) as [[|r|c]|]; try done.
  destruct ((release ← acquire; try_finally body release) (store w)) as [c s].
  intros [= <-]. by apply Forall_insert.
Qed.

(** Every interleaving that ends between two calls is a serial run: its
    schedule moves each call twice in a row, and the world it reaches
    is the one reached by awaiting the calls one by one in that order. *)
Theorem interleaving_is_serial (schedule : list nat) (w w' : world E St A) :
  quiet w → exec bodies schedule w = Some w' → between_calls w' →
  ∃ order, schedule = order ≫= (λ i, [i; i]) ∧ serial bodies order w = Some w'.
Proof.
  remember (length schedule) as n eqn:Hn. revert schedule w Hn.
  induction n as [n IH] using lt_wf_ind. intros schedule w Hn Hquiet Hexec Hend.
  destruct schedule as [|i [|j rest]]; simpl in Hexec.
  - exists []. by injection Hexec as <-.
  - destruct (step bodies i w) as [w1|] eqn:Hstep; [|done]. injection Hexec as <-.
    destruct (step_grants _ _ _ Hquiet Hstep) as (body & _ & Hi & ->).
    exfalso. simpl in Hend.
    assert (Hat : <[i := Granted release]> (tasks w) !! i = Some (Granted release))
      by (apply list_lookup_insert_eq; by eapply lookup_lt_Some).
    by destruct (Forall_lookup_1 _ _ _ _ Hend Hat release).
  - destruct (step bodies i w) as [w1|] eqn:Hstep; [|done].
    destruct (step_grants _ _ _ Hquiet Hstep) as (body & Hbody & Hi & ->).
    destruct (step bodies j _) as [w2|] eqn:Hstep2; [|done].
    destruct (step_runs_the_granted _ _ _ _ _ Hquiet Hbody Hi Hstep2) as [-> Hserve].
    pose proof (serve_between_calls _ _ _ (proj2 Hquiet) Hserve) as Hbetween2.
    destruct (the_mutex (store w2)) eqn:Hm.
    + destruct (IH (length rest)) with (schedule := rest) (w := w2)
        as (order & -> & Hserial); [simpl in Hn; lia | done | done | done | done |].
      exists (i :: order). split; [done|]. simpl. by rewrite Hserve.
    + destruct rest as [|k rest]; simpl in Hexec.
      * injection Hexec as <-. exists [i]. split; [done|]. simpl. by rewrite Hserve.
      * by rewrite held_is_stuck in Hexec.
Qed.

Lemma all_settled_between_calls (w : world E St A) :
  all_settled w = true → between_calls w.
Proof.
  unfold all_settled, between_calls. intros Hall.
  apply Forall_forall. intros t Ht r ->.
  rewrite forallb_forall in Hall.
  by specialize (Hall _ Ht).
Qed.
End Serializable.

(** ** Two reservations of 2 against a stock of 3 *)

Section TwoReservations.
Import Scheduler.
Context `{Countable K} (p : K).

Abbreviation free inv := {| ThreadSafeInventory.mutex := Free; inventory := inv |}.
Abbreviation refused := (Throw (Error "Insufficient stock")).

Let bodies : list (M JsError (ThreadSafeInventory.t K Z) bool) :=
  [reserveStock_body p 2; reserveStock_body p 2].

Lemma stocked_with_three :
  snd (initializeProduct p 3 ThreadSafeInventory.new) = free {[p := 3]}.
Proof.
  change (snd (initializeProduct p 3 ThreadSafeInventory.new))
    with (free (<[p := 3]> (∅ : gmap K Z))).
  by rewrite insert_empty.
Qed.

Lemma first_of_two_succeeds :
  reserveStock p 2 (free {[p := 3]}) = (Return true, free {[p := 1]}).
Proof.
  rewrite reserveStock_unfold, lookup_singleton_eq. simpl.
  by rewrite insert_singleton_eq.
Qed.

Lemma second_of_two_is_refused :
  reserveStock p 2 (free {[p := 1]}) = (refused, free {[p := 1]}).
Proof. by rewrite reserveStock_unfold, lookup_singleton_eq. Qed.

Lemma two_in_a_row :
  run [ReserveStock p 2; ReserveStock p 2] (free {[p := 3]})
  = ([Return (VBoolean true); refused], free {[p := 1]}).
Proof.
  rewrite !run_cons. cbn [run fst snd].
  rewrite (perform_unfold (ReserveStock p 2) {[p := 3]}), lookup_singleton_eq.
  change (default 0 (Some 3) <? 2) with false. cbn [fst snd].
  rewrite insert_singleton_eq. change (default 0 (Some 3) - 2) with 1.
  rewrite perform_unfold, lookup_singleton_eq. reflexivity.
Qed.

Lemma serve_reservation (i : nat) (w : world JsError (ThreadSafeInventory.t K Z) bool) :
  (i < 2)%nat → tasks w !! i = Some Queued →
  serve bodies i w
  = Some {| store := snd (reserveStock p 2 (store w));
            tasks := <[i := Settled (fst (reserveStock p 2 (store w)))]> (tasks w) |}.
Proof.
  intros Hi Hq. unfold serve. rewrite Hq.
  destruct i as [|[|i]]; [| |lia]; simpl;
    change (release ← acquire; try_finally (reserveStock_body p 2) release)
      with (reserveStock p 2);
    by destruct (reserveStock p 2 (store w)).
Qed.

Lemma serve_not_queued (i : nat) (w : world JsError (ThreadSafeInventory.t K Z) bool) :
  tasks w !! i ≠ Some Queued → serve bodies i w = None.
Proof.
  intros Hq. unfold serve. destruct (bodies !! i); [|done].
  by destruct (tasks w !! i) as [[]|].
Qed.

Lemma two_served_in_any_order
    (order : list nat) (w : world JsError (ThreadSafeInventory.t K Z) bool) :
  serial bodies order {| store := free {[p := 3]}; tasks := [Queued; Queued] |} = Some w →
  all_settled w = true →
  store w = free {[p := 1]}
  ∧ (tasks w = [Settled (Return true); Settled refused]
     ∨ tasks w = [Settled refused; Settled (Return true)]).
Proof.
  intros Hserial Hall.
  destruct order as [|i order]; cbn [serial] in Hserial.
  { by injection Hserial as <-. }
  assert (Hi : i = 0%nat ∨ i = 1%nat).
  { destruct i as [|[|i]]; auto.
    rewrite serve_not_queued in Hserial; [done | simpl; by rewrite lookup_nil]. }
  rewrite serve_reservation in Hserial by (destruct Hi as [-> | ->]; (lia || done)).
  cbn [store tasks] in Hserial. rewrite first_of_two_succeeds in Hserial.
  cbn [fst snd] in Hserial.
  destruct order as [|j order]; cbn [serial] in Hserial.
  { injection Hserial as <-. by destruct Hi as [-> | ->]. }
  assert (Hj : i = 0%nat ∧ j = 1%nat ∨ i = 1%nat ∧ j = 0%nat).
  { destruct Hi as [-> | ->]; destruct j as [|[|j]]; auto;
      (rewrite serve_not_queued in Hserial; [done | simpl; by rewrite ?lookup_nil]). }
  rewrite serve_reservation in Hserial by (destruct Hj as [[-> ->] | [-> ->]]; (lia || done)).
  cbn [store tasks] in Hserial. rewrite second_of_two_is_refused in Hserial.
  cbn [fst snd] in Hserial.
  destruct order as [|k order]; cbn [serial] in Hserial.
  - injection Hserial as <-. destruct Hj as [[-> ->] | [-> ->]]; auto.
  - rewrite serve_not_queued in Hserial; [done|].
    destruct Hj as [[-> ->] | [-> ->]]; destruct k as [|[|k]];
      simpl; by rewrite ?lookup_nil.
Qed.

Lemma two_interleaved
    (schedule : list nat) (w : world JsError (ThreadSafeInventory.t K Z) bool) :
  exec bodies schedule (init bodies (snd (initializeProduct p 3 ThreadSafeInventory.new)))
  = Some w →
  all_settled w = true →
  store w = free {[p := 1]}
  ∧ (tasks w = [Settled (Return true); Settled refused]
     ∨ tasks w = [Settled refused; Settled (Return true)]).
Proof.
  rewrite stocked_with_three. intros Hexec Hall.
  assert (Hlaw : ∀ m (s : ThreadSafeInventory.t K Z), the_mutex (with_mutex m s) = m)
    by done.
  destruct (interleaving_is_serial Hlaw bodies schedule
              (init bodies (free {[p := 3]})) w) as (order & _ & Hserial);
    [ | exact Hexec | by apply all_settled_between_calls | ].
  - split; [done|]. by repeat constructor.
  - by eapply two_served_in_any_order.
Qed.
End TwoReservations.

(** C8.  With PROD-1 stocked at 3, two reservations of 2 cannot both go
    through.  Issued one after the other, the first succeeds and the
    second is refused with "Insufficient stock"; issued together, every
    interleaving that completes both has let one of them in first, which
    succeeded, and refused the other.  Either way 1 is left in stock. *)
Theorem two_reservations_of_two_from_three :
  let stocked := snd (initializeProduct "PROD-1" 3 ThreadSafeInventory.new) in
  let left := {| ThreadSafeInventory.mutex := Free; inventory := {["PROD-1" := 1]} |} in
  let bodies := [reserveStock_body "PROD-1" 2; reserveStock_body "PROD-1" 2] in
  run [ReserveStock "PROD-1" 2; ReserveStock "PROD-1" 2] stocked
  = ([Return (VBoolean true); Throw (Error "Insufficient stock")], left)
  ∧ ∀ schedule w,
      Scheduler.exec bodies schedule (Scheduler.init bodies stocked) = Some w →
      Scheduler.all_settled w = true →
      Scheduler.store w = left
      ∧ (Scheduler.tasks w
         = [Scheduler.Settled (Return true);
            Scheduler.Settled (Throw (Error "Insufficient stock"))]
         ∨ Scheduler.tasks w
           = [Scheduler.Settled (Throw (Error "Insufficient stock"));
              Scheduler.Settled (Return true)]).
Proof.
  intros stocked left bodies. split.
  - subst stocked. rewrite stocked_with_three. apply two_in_a_row.
  - intros schedule w. apply two_interleaved.
Qed.

Lemma two_reservations_of_two_from_three_witness :
  let stocked := snd (initializeProduct "PROD-1" 3 ThreadSafeInventory.new) in
  let bodies := [reserveStock_body "PROD-1" 2; reserveStock_body "PROD-1" 2] in
  let w := {| Scheduler.store :=
                {| ThreadSafeInventory.mutex := Free; inventory := {["PROD-1" := 1]} |};
              Scheduler.tasks :=
                [Scheduler.Settled (Throw (Error "Insufficient stock"));
                 Scheduler.Settled (Return true)] |} in
  Scheduler.exec bodies [1; 1; 0; 0]%nat (Scheduler.init bodies stocked) = Some w
  ∧ Scheduler.store w
    = {| ThreadSafeInventory.mutex := Free; inventory := {["PROD-1" := 1]} |}.
Proof.
  intros stocked bodies w.
  assert (Hexec : Scheduler.exec bodies [1; 1; 0; 0]%nat (Scheduler.init bodies stocked)
                  = Some w) by (vm_compute; reflexivity).
  split; [exact Hexec|].
  exact (proj1 (proj2 two_reservations_of_two_from_three _ w Hexec eq_refl)).
Defined.

(** ** The counter on the event loop *)

Section QueuedIncrements.
Import Scheduler.

Abbreviation settled t := (if is_settled (E := JsError) (St := ThreadSafeCounter.t) (A := Z) t
                           then 1%nat else 0%nat).

(** A call that runs alone goes through the five statements of
    [Increments.step] and ends where [increment] ends. *)
Lemma one_call_alone_is_increment (c : ThreadSafeCounter.t) :
  ThreadSafeCounter.mutex c = Free →
  ∃ result after,
    increment c = (Return result, after)
    ∧ Increments.exec [0; 0; 0; 0; 0]%nat
        {| Increments.shared := c; Increments.tasks := [Increments.Waiting] |}
      = Some {| Increments.shared := after;
                Increments.tasks := [Increments.Done result] |}.
Proof.
  destruct c as [n m]. simpl. intros ->. by eexists _, _.
Qed.

Lemma serve_increment (n i : nat) (w w' : world JsError ThreadSafeCounter.t Z) :
  serve (replicate n increment_body) i w = Some w' →
  ThreadSafeCounter.mutex (store w) = Free →
  ThreadSafeCounter.mutex (store w') = Free
  ∧ counter (store w') = counter (store w) + 1
  ∧ (sum_list_with (λ t, settled t) (tasks w')
     = S (sum_list_with (λ t, settled t) (tasks w)))
  ∧ length (tasks w') = length (tasks w).
Proof.
  unfold serve. intros Hserve Hfree.
  destruct (replicate n increment_body !! i) as [body|] eqn:Hbody; [|done].
  apply lookup_replicate in Hbody as [-> _].
  destruct (tasks w !! i) as [[|r|c]|] eqn:Hi; try done.
  change (release ← acquire; try_finally increment_body release) with increment in Hserve.
  destruct w as [[k m] ts]. simpl in *. subst m.
  change (increment {| counter := k; ThreadSafeCounter.mutex := Free |})
    with (Return (E := JsError) (k + 1),
          {| counter := k + 1; ThreadSafeCounter.mutex := Free |}) in Hserve.
  injection Hserve as <-.
  simpl. rewrite length_insert.
  pose proof (sum_list_with_insert (λ t, settled t) ts i Queued (Settled (Return (k + 1))) Hi)
    as Hsum.
  simpl in Hsum. repeat split; lia.
Qed.

Lemma serial_increments (n : nat) (order : list nat)
    (w w' : world JsError ThreadSafeCounter.t Z) :
  serial (replicate n increment_body) order w = Some w' →
  ThreadSafeCounter.mutex (store w) = Free →
  ThreadSafeCounter.mutex (store w') = Free
  ∧ counter (store w') - Z.of_nat (sum_list_with (λ t, settled t) (tasks w'))
    = counter (store w) - Z.of_nat (sum_list_with (λ t, settled t) (tasks w))
  ∧ length (tasks w') = length (tasks w).
Proof.
  revert w. induction order as [|i order IH]; intros w Hserial Hfree; simpl in Hserial.
  - by injection Hserial as <-.
  - destruct (serve _ i w) as [w1|] eqn:Hserve; [|done].
    destruct (serve_increment _ _ _ _ Hserve Hfree) as (Hfree1 & Hc & Hs & Hl).
    destruct (IH _ Hserial Hfree1) as (Hfree' & Hc' & Hl').
    repeat split; [done | lia | lia].
Qed.

Lemma all_settled_count (ts : list (status JsError ThreadSafeCounter.t Z)) :
  forallb is_settled ts = true → sum_list_with (λ t, settled t) ts = length ts.
Proof.
  induction ts as [|t ts IH]; simpl; [done|].
  intros [-> Hts]%andb_prop. by rewrite IH.
Qed.

(** The same count when the calls are run as the event loop runs them,
    each critical section in one turn: however the [n] queued calls are
    let in, once all have settled the counter holds [n]. *)
Lemma queued_increments_count_exactly
    (n : nat) (schedule : list nat) (w : world JsError ThreadSafeCounter.t Z) :
  exec (replicate n increment_body) schedule
    (init (replicate n increment_body) ThreadSafeCounter.new) = Some w →
  all_settled w = true →
  store w = {| counter := Z.of_nat n; ThreadSafeCounter.mutex := Free |}.
Proof.
  intros Hexec Hall.
  assert (Hlaw : ∀ m (s : ThreadSafeCounter.t), the_mutex (with_mutex m s) = m) by done.
  destruct (interleaving_is_serial Hlaw (replicate n increment_body) schedule
              (init (replicate n increment_body) ThreadSafeCounter.new) w)
    as (order & _ & Hserial);
    [ | exact Hexec | by apply all_settled_between_calls | ].
  { split; [done|]. apply Forall_replicate. done. }
  destruct (serial_increments _ _ _ _ Hserial eq_refl) as (Hfree & Hcount & Hlen).
  unfold all_settled in Hall. rewrite (all_settled_count _ Hall), Hlen in Hcount.
  simpl in Hcount, Hfree. rewrite !length_replicate in Hcount.
  assert (Hzero : sum_list_with (λ t, settled t)
                    (replicate n (Queued : status JsError ThreadSafeCounter.t Z)) = 0%nat)
    by (rewrite sum_list_with_replicate; simpl; lia).
  rewrite Hzero in Hcount.
  destruct (store w) as [k m]. simpl in *. subst m. f_equal. lia.
Qed.
End QueuedIncrements.

(** * Further properties of the code *)

(** ** The cache as a map *)

Section CacheAsMap.
Context `{Countable K}.

Abbreviation cached m := {| cache := m; ThreadSafeCache.mutex := Free |}.

Lemma cache_set_unfold (m : gmap K value) (key : K) (v : value) :
  ThreadSafeCache.set key v (cached m) = (Return (), cached (<[key := v]> m)).
Proof. reflexivity. Qed.

Lemma cache_get_unfold (m : gmap K value) (key : K) :
  get key (cached m) = (Return (default VUndefined (m !! key)), cached m).
Proof. reflexivity. Qed.

Lemma cache_delete_unfold (m : gmap K value) (key : K) :
  ThreadSafeCache.delete key (cached m)
  = (Return (bool_decide (is_Some (m !! key))), cached (base.delete key m)).
Proof. reflexivity. Qed.

Lemma then_unfold {E St A B} (m : M E St A) (k : M E St B) (s s' : St) (v : A) :
  m s = (Return v, s') → (m;; k) s = k s'.
Proof. intros Hm. unfold mbind, M_bind, bind. by rewrite Hm. Qed.
End CacheAsMap.

(** X1.  What [set] stores, [get] returns: after [set(key, v)] a [get]
    of the same key answers [v] whatever the cache held before, and a
    [get] of any other key answers what it answered before. *)
Theorem cache_get_after_set `{Countable K}
    (m : gmap K value) (key other : K) (v : value) :
  (ThreadSafeCache.set key v;; get key) {| cache := m; ThreadSafeCache.mutex := Free |}
  = (Return v, {| cache := <[key := v]> m; ThreadSafeCache.mutex := Free |})
  ∧ (other ≠ key →
     fst ((ThreadSafeCache.set key v;; get other)
            {| cache := m; ThreadSafeCache.mutex := Free |})
     = fst (get other {| cache := m; ThreadSafeCache.mutex := Free |})).
Proof.
  split.
  - rewrite (then_unfold _ _ _ _ _ (cache_set_unfold m key v)), cache_get_unfold.
    by rewrite lookup_insert_eq.
  - intros Hne.
    rewrite (then_unfold _ _ _ _ _ (cache_set_unfold m key v)), !cache_get_unfold.
    by rewrite lookup_insert_ne.
Qed.

Lemma cache_get_after_set_witness :
  fst ((ThreadSafeCache.set "a" (VNumber 1);; get "b")
         {| cache := {["b" := VString "old"]}; ThreadSafeCache.mutex := Free |})
  = fst (get "b" {| cache := {["b" := VString "old"]}; ThreadSafeCache.mutex := Free |}).
Proof.
  apply (proj2 (cache_get_after_set {["b" := VString "old"]} "a" "b" (VNumber 1))).
  discriminate.
Defined.

(** X2.  [delete] answers whether the key was in the cache, also when it
    held [undefined]; afterwards the key reads as missing and the other
    keys read as before.  Deleting a key that is not there answers
    [false] and leaves the cache as it was. *)
Theorem cache_delete_reports_and_removes `{Countable K}
    (m : gmap K value) (key other : K) :
  let c := {| cache := m; ThreadSafeCache.mutex := Free |} in
  (is_Some (m !! key) → fst (ThreadSafeCache.delete key c) = Return true)
  ∧ (m !! key = None → ThreadSafeCache.delete key c = (Return false, c))
  ∧ fst ((ThreadSafeCache.delete key;; get key) c) = Return VUndefined
  ∧ (other ≠ key →
     fst ((ThreadSafeCache.delete key;; get other) c) = fst (get other c)).
Proof.
  intros c. subst c. repeat split.
  - intros Hin. rewrite cache_delete_unfold. simpl. by rewrite bool_decide_eq_true_2.
  - intros Hout. rewrite cache_delete_unfold, delete_id by done.
    rewrite bool_decide_eq_false_2; [done|]. rewrite Hout. by intros [? ?].
  - rewrite (then_unfold _ _ _ _ _ (cache_delete_unfold m key)), cache_get_unfold.
    by rewrite lookup_delete_eq.
  - intros Hne.
    rewrite (then_unfold _ _ _ _ _ (cache_delete_unfold m key)), !cache_get_unfold.
    by rewrite lookup_delete_ne.
Qed.

Lemma cache_delete_reports_and_removes_witness :
  fst (ThreadSafeCache.delete "k"
         {| cache := {["k" := VUndefined]}; ThreadSafeCache.mutex := Free |})
  = Return true
  ∧ ThreadSafeCache.delete "k" {| cache := (∅ : gmap string value);
                                  ThreadSafeCache.mutex := Free |}
    = (Return false, {| cache := ∅; ThreadSafeCache.mutex := Free |}).
Proof.
  split.
  - apply (proj1 (cache_delete_reports_and_removes {["k" := VUndefined]} "k" "k")).
    rewrite lookup_singleton_eq. by eexists.
  - apply (proj1 (proj2 (cache_delete_reports_and_removes
                           (∅ : gmap string value) "k" "k"))).
    apply lookup_empty.
Defined.

(** X3.  The last [set] wins: two [set]s of one key leave the cache as
    the second alone would.  And [delete] undoes a [set] of a key that was
    not there: the cache is back to what it was. *)
Theorem cache_set_overwrites_and_delete_undoes `{Countable K}
    (m : gmap K value) (key : K) (v1 v2 : value) :
  let c := {| cache := m; ThreadSafeCache.mutex := Free |} in
  snd ((ThreadSafeCache.set key v1;; ThreadSafeCache.set key v2) c)
  = snd (ThreadSafeCache.set key v2 c)
  ∧ (m !! key = None →
     (ThreadSafeCache.set key v1;; ThreadSafeCache.delete key) c = (Return true, c)).
Proof.
  intros c. subst c. split.
  - rewrite (then_unfold _ _ _ _ _ (cache_set_unfold m key v1)), !cache_set_unfold.
    simpl. by rewrite insert_insert_eq.
  - intros Hout.
    rewrite (then_unfold _ _ _ _ _ (cache_set_unfold m key v1)), cache_delete_unfold.
    rewrite lookup_insert_eq, delete_insert_eq, delete_id by done.
    rewrite bool_decide_eq_true_2; [done | by eexists].
Qed.

Lemma cache_set_overwrites_and_delete_undoes_witness :
  (ThreadSafeCache.set "k" (VNumber 1);; ThreadSafeCache.delete "k")
    {| cache := {["other" := VNull]}; ThreadSafeCache.mutex := Free |}
  = (Return true, {| cache := {["other" := VNull]}; ThreadSafeCache.mutex := Free |}).
Proof.
  apply (proj2 (cache_set_overwrites_and_delete_undoes
                  {["other" := VNull]} "k" (VNumber 1) VNull)).
  vm_compute. reflexivity.
Defined.

(** ** More on the inventory *)

(** X4.  [reserveStock] touches one product only: whether it succeeds or
    is refused, every other product keeps its entry and its stock. *)
Theorem reserveStock_leaves_other_products `{Countable K}
    (inv : gmap K Z) (productId other : K) (qty : Z) :
  other ≠ productId →
  let after := snd (reserveStock productId qty
                      {| ThreadSafeInventory.mutex := Free; inventory := inv |}) in
  inventory after !! other = inv !! other
  ∧ fst (getStock other after)
    = fst (getStock other {| ThreadSafeInventory.mutex := Free; inventory := inv |}).
Proof.
  intros Hne after. subst after. rewrite reserveStock_unfold.
  destruct (default 0 (inv !! productId) <? qty); simpl; [done|].
  assert (Hother : <[productId := default 0 (inv !! productId) - qty]> inv !! other
                   = inv !! other) by by rewrite lookup_insert_ne.
  split; [done|]. unfold getStock, mbind, M_bind, bind, acquire, try_finally, gets,
    release, modify, stock_of; simpl. by rewrite Hother.
Qed.

Lemma reserveStock_leaves_other_products_witness :
  inventory (snd (reserveStock "PROD-1" 2
                    {| ThreadSafeInventory.mutex := Free;
                       inventory := <["PROD-2" := 7]> {["PROD-1" := 3]} |}))
    !! "PROD-2"
  = (<["PROD-2" := 7]> {["PROD-1" := 3]} : gmap string Z) !! "PROD-2".
Proof.
  apply (reserveStock_leaves_other_products
           (<["PROD-2" := 7]> {["PROD-1" := 3]}) "PROD-1" "PROD-2" 2).
  discriminate.
Defined.



(** X17.  What [initializeProduct] stores, [getStock] returns, for every
    number type and whatever the product held before; a [getStock] of
    another product answers what it answered before. *)
Theorem getStock_after_initializeProduct `{Countable K} `{JsNumber A}
    (inv : gmap K A) (productId other : K) (initialStock : A) :
  let start := {| ThreadSafeInventory.mutex := Free; inventory := inv |} in
  (initializeProduct productId initialStock;; getStock productId) start
  = (Return initialStock,
     {| ThreadSafeInventory.mutex := Free;
        inventory := <[productId := initialStock]> inv |})
  ∧ (other ≠ productId →
     fst ((initializeProduct productId initialStock;; getStock other) start)
     = fst (getStock other start)).
Proof.
  intros start. subst start.
  assert (Hinit : initializeProduct productId initialStock
                    {| ThreadSafeInventory.mutex := Free; inventory := inv |}
                  = (Return (),
                     {| ThreadSafeInventory.mutex := Free;
                        inventory := <[productId := initialStock]> inv |}))
    by reflexivity.
  assert (Hget : ∀ (i : gmap K A) (q : K),
             getStock q {| ThreadSafeInventory.mutex := Free; inventory := i |}
             = (Return (default num_zero (i !! q)),
                {| ThreadSafeInventory.mutex := Free; inventory := i |}))
    by reflexivity.
  split.
  - rewrite (then_unfold _ _ _ _ _ Hinit), Hget. by rewrite lookup_insert_eq.
  - intros Hne. rewrite (then_unfold _ _ _ _ _ Hinit), !Hget.
    by rewrite lookup_insert_ne.
Qed.

Lemma getStock_after_initializeProduct_witness :
  fst ((initializeProduct "PROD-1" (Q2Qc (1 # 2));; getStock "PROD-2")
         {| ThreadSafeInventory.mutex := Free;
            inventory := {["PROD-2" := Q2Qc (7 # 1)]} |})
  = fst (getStock "PROD-2"
           {| ThreadSafeInventory.mutex := Free;
              inventory := {["PROD-2" := Q2Qc (7 # 1)]} |}).
Proof.
  apply (proj2 (getStock_after_initializeProduct
                  {["PROD-2" := Q2Qc (7 # 1)]} "PROD-1" "PROD-2" (Q2Qc (1 # 2)))).
  discriminate.
Defined.

(** ** More on [execute] and the lock *)

(** X6.  [execute] hands back the completion of the operation as it is:
    its value, its error, or no completion at all.  It writes to the
    console exactly when the operation throws, one line; and it leaves the
    lock free unless the operation never completes, in which case the lock
    stays held. *)
Theorem execute_passes_the_completion_through {E W A : Type}
    (operation : M E W A) (w w' : W) (log : list (string * E)) (c : completion E A) :
  operation w = (c, w') →
  execute operation
    {| this := {| ThreadSafeOperation.mutex := Free |}; world := w; console := log |}
  = (c,
     {| this := {| ThreadSafeOperation.mutex :=
                     match c with Pending => Held | _ => Free end |};
        world := w';
        console := log ++ match c with
                          | Throw e => [("Thread-safe operation failed:"%string, e)]
                          | _ => []
                          end |}).
Proof.
  intros Hop. unfold execute. rewrite acquire_try_finally_release by reflexivity.
  unfold try_catch, ThreadSafeOperation.call, mbind, M_bind, bind, console_error, modify, throw; simpl.
  rewrite Hop. destruct c as [v|e|]; simpl; by rewrite ?app_nil_r.
Qed.

Lemma execute_passes_the_completion_through_witness :
  execute (E := string) (W := Z) (A := Z) (λ w, (Return (w + 1), w + 1))
    {| this := {| ThreadSafeOperation.mutex := Free |}; world := 41; console := [] |}
  = (Return 42,
     {| this := {| ThreadSafeOperation.mutex := Free |}; world := 42; console := [] |}).
Proof.
  exact (execute_passes_the_completion_through (E := string)
           (λ w, (Return (w + 1), w + 1)) 41 42 [] (Return 42) eq_refl).
Defined.

(** X7.  An operation that never completes wedges the object: the lock
    stays held, and every later [execute] waits for ever without running
    its operation, so nothing it would have done happens. *)
Theorem execute_after_a_pending_operation_never_runs {E W A B : Type}
    (operation : M E W A) (next : M E W B) (w w' : W) (log : list (string * E)) :
  operation w = (Pending, w') →
  let stuck := snd (execute operation
                      {| this := {| ThreadSafeOperation.mutex := Free |};
                         world := w; console := log |}) in
  ThreadSafeOperation.mutex (this stuck) = Held
  ∧ execute next stuck = (Pending, stuck).
Proof.
  intros Hop stuck.
  assert (Hstuck : stuck = {| this := {| ThreadSafeOperation.mutex := Held |};
                              world := w'; console := log |}).
  { subst stuck. unfold execute. rewrite acquire_try_finally_release by reflexivity.
    unfold try_catch, ThreadSafeOperation.call; simpl. by rewrite Hop. }
  rewrite Hstuck. split; reflexivity.
Qed.

Lemma execute_after_a_pending_operation_never_runs_witness :
  execute (E := string) (W := Z) (A := Z) (λ w, (Return w, w + 1))
    (snd (execute (E := string) (W := Z) (A := Z) (λ w, (Pending, w))
            {| this := {| ThreadSafeOperation.mutex := Free |}; world := 0;
               console := [] |}))
  = (Pending,
     {| this := {| ThreadSafeOperation.mutex := Held |}; world := 0; console := [] |}).
Proof.
  exact (proj2 (execute_after_a_pending_operation_never_runs (E := string)
                  (λ w, (Pending, w)) (λ w, (Return w, w + 1)) 0 0 [] eq_refl)).
Defined.

(** X8.  No method enters its critical section while the lock is held:
    called on a held lock, every method of the three classes and
    [execute] stay pending and leave the object exactly as it is. *)
Theorem no_method_runs_while_the_lock_is_held :
  (∀ c : ThreadSafeCounter.t, ThreadSafeCounter.mutex c = Held →
     increment c = (Pending, c) ∧ getValue c = (Pending, c))
  ∧ (∀ `{Countable K} (c : ThreadSafeCache.t K) (key : K) (v : value),
       ThreadSafeCache.mutex c = Held →
       ThreadSafeCache.set key v c = (Pending, c) ∧ get key c = (Pending, c)
       ∧ ThreadSafeCache.delete key c = (Pending, c))
  ∧ (∀ `{Countable K} `{JsNumber A} (i : ThreadSafeInventory.t K A) (productId : K) (n : A),
       ThreadSafeInventory.mutex i = Held →
       initializeProduct productId n i = (Pending, i)
       ∧ reserveStock productId n i = (Pending, i)
       ∧ getStock productId i = (Pending, i))
  ∧ (∀ (E W A : Type) (operation : M E W A) (e : ThreadSafeOperation.env E W),
       ThreadSafeOperation.mutex (this e) = Held → execute operation e = (Pending, e)).
Proof.
  split; [|split; [|split]].
  - intros [n m] Hm; simpl in Hm; subst m. by split.
  - intros K ? ? [m l] key v Hl; simpl in Hl; subst l. by repeat split.
  - intros K ? ? A ? [l inv] productId n Hl; simpl in Hl; subst l. by repeat split.
  - intros E W A operation [[l] w log] Hl; simpl in Hl; subst l. reflexivity.
Qed.

Lemma no_method_runs_while_the_lock_is_held_witness :
  increment {| counter := 4; ThreadSafeCounter.mutex := Held |}
  = (Pending, {| counter := 4; ThreadSafeCounter.mutex := Held |}).
Proof.
  exact (proj1 (proj1 no_method_runs_while_the_lock_is_held
                  {| counter := 4; ThreadSafeCounter.mutex := Held |} eq_refl)).
Defined.

(** ** Complete interleavings are serial runs of all the calls *)

Section SerialOrders.
Import Scheduler.
Context {E St A : Type} `{Guarded St}.
Variable bodies : list (M E St A).

Lemma serve_tasks (i : nat) (w w' : world E St A) :
  serve bodies i w = Some w' →
  tasks w !! i = Some Queued ∧ ∃ c, tasks w' = <[i := Settled c]> (tasks w).
Proof.
  unfold serve. destruct (bodies !! i) as [body|]; [|done].
  destruct (tasks w !! i) as [[|r|c]|]; try done.
  destruct ((release ← acquire; try_finally body release) (store w)) as [c s].
  intros [= <-]. split; [done|]. by exists c.
Qed.

(** A serial run serves each call of its order once, and only calls
    that were queued; it leaves the other calls alone. *)
Lemma serial_order (order : list nat) (w w' : world E St A) :
  serial bodies order w = Some w' →
  NoDup order
  ∧ (∀ i, i ∈ order → tasks w !! i = Some Queued)
  ∧ (∀ i, i ∉ order → tasks w' !! i = tasks w !! i).
Proof.
  revert w. induction order as [|i order IH]; intros w Hserial; simpl in Hserial.
  - injection Hserial as <-. split; [constructor|]. split; [|done].
    intros i Hi. by apply not_elem_of_nil in Hi.
  - destruct (serve bodies i w) as [w1|] eqn:Hserve; [|done].
    destruct (serve_tasks _ _ _ Hserve) as (Hi & c & Htasks).
    destruct (IH _ Hserial) as (Hnodup & Hqueued & Hrest).
    assert (Hsettled : tasks w1 !! i = Some (Settled c)).
    { rewrite Htasks. apply list_lookup_insert_eq. by eapply lookup_lt_Some. }
    assert (Hfresh : i ∉ order).
    { intros Hin. apply Hqueued in Hin. congruence. }
    split; [by constructor|]. split.
    + intros j [->|Hj]%elem_of_cons; [done|].
      pose proof (Hqueued _ Hj) as Hj1.
      rewrite Htasks, list_lookup_insert_ne in Hj1; [done|]. intros ->. congruence.
    + intros j Hj. apply not_elem_of_cons in Hj as [Hne Hj].
      rewrite (Hrest _ Hj), Htasks. by apply list_lookup_insert_ne.
Qed.

(** If the run starts with every call queued and ends with every call
    settled, its order lists every call exactly once. *)
Lemma serial_all_settled (order : list nat) (s : St) (w : world E St A) :
  serial bodies order (init bodies s) = Some w → all_settled w = true →
  order ≡ₚ seq 0 (length bodies).
Proof.
  intros Hserial Hall. destruct (serial_order _ _ _ Hserial) as (Hnodup & Hqueued & Hrest).
  apply NoDup_Permutation; [done | apply NoDup_seq |].
  intros i. rewrite elem_of_seq. split.
  - intros Hi%Hqueued. simpl in Hi. apply lookup_replicate in Hi. lia.
  - intros [_ Hi]. destruct (decide (i ∈ order)) as [|Hout]; [done|exfalso].
    pose proof (Hrest _ Hout) as Hsame. simpl in Hsame.
    rewrite lookup_replicate_2 in Hsame by lia.
    unfold all_settled in Hall. rewrite forallb_forall in Hall.
    specialize (Hall Queued). simpl in Hall.
    assert (Hin : In (Queued : status E St A) (tasks w)); [|by apply Hall in Hin].
    apply list_elem_of_In. by eapply list_elem_of_lookup_2.
Qed.

Lemma serve_unfold (i : nat) (body : M E St A) (w : world E St A) :
  bodies !! i = Some body → tasks w !! i = Some Queued →
  serve bodies i w
  = Some {| store := snd ((release ← acquire; try_finally body release) (store w));
            tasks := <[i := Settled (fst ((release ← acquire; try_finally body release)
                                            (store w)))]> (tasks w) |}.
Proof.
  intros Hbody Hi. unfold serve. rewrite Hbody, Hi.
  by destruct ((release ← acquire; try_finally body release) (store w)).
Qed.
End SerialOrders.

(** X9.  Whatever the store and whatever the critical sections: when
    calls written as [acquire], [try] body [finally] release are
    interleaved and all of them settle, the schedule has run them one
    after the other in some order that lists every call once, and the
    store and the results are those of awaiting the calls one by one in
    that order. *)
Theorem complete_interleaving_is_a_serial_run {E St A : Type} `{Guarded St}
    (bodies : list (M E St A)) (schedule : list nat) (s : St)
    (w : Scheduler.world E St A) :
  (∀ m (s : St), the_mutex (with_mutex m s) = m) →
  the_mutex s = Free →
  Scheduler.exec bodies schedule (Scheduler.init bodies s) = Some w →
  Scheduler.all_settled w = true →
  ∃ order,
    order ≡ₚ seq 0 (length bodies)
    ∧ schedule = order ≫= (λ i, [i; i])
    ∧ Scheduler.serial bodies order (Scheduler.init bodies s) = Some w.
Proof.
  intros Hlaw Hfree Hexec Hall.
  destruct (interleaving_is_serial Hlaw bodies schedule (Scheduler.init bodies s) w)
    as (order & Hschedule & Hserial);
    [ | done | by apply all_settled_between_calls | ].
  - split; [done|]. apply Forall_replicate. done.
  - exists order. split; [by eapply serial_all_settled | done].
Qed.

Lemma complete_interleaving_is_a_serial_run_witness :
  ∃ order,
    order ≡ₚ seq 0 2
    ∧ [1; 1; 0; 0]%nat = order ≫= (λ i, [i; i])
    ∧ Scheduler.serial [increment_body; increment_body] order
        (Scheduler.init [increment_body; increment_body] ThreadSafeCounter.new)
      = Some {| Scheduler.store := {| counter := 2; ThreadSafeCounter.mutex := Free |};
                Scheduler.tasks := [Scheduler.Settled (Return 2);
                                    Scheduler.Settled (Return 1)] |}.
Proof.
  apply (complete_interleaving_is_a_serial_run
           [increment_body; increment_body] [1; 1; 0; 0]%nat ThreadSafeCounter.new).
  - done.
  - reflexivity.
  - reflexivity.
  - reflexivity.
Defined.

(** ** A [get] against a [set] *)

Section GetAgainstSet.
Import Scheduler CacheCalls.
Context `{Countable K}.

Lemma cache_perform_is_guarded_body (c : call K) (s : ThreadSafeCache.t K) :
  perform c s = (release ← acquire; try_finally (body c) release) s.
Proof.
  destruct s as [m [|]]; destruct c as [key v|key|key]; reflexivity.
Qed.

Lemma cache_guarded_body (c : call K) (m : gmap K value) :
  (release ← acquire; try_finally (body c) release)
    {| cache := m; ThreadSafeCache.mutex := Free |}
  = match c with
    | CacheSet key v =>
        (Return VUndefined, {| cache := <[key := v]> m; ThreadSafeCache.mutex := Free |})
    | CacheGet key =>
        (Return (default VUndefined (m !! key)),
         {| cache := m; ThreadSafeCache.mutex := Free |})
    | CacheDelete key =>
        (Return (VBoolean (bool_decide (is_Some (m !! key)))),
         {| cache := base.delete key m; ThreadSafeCache.mutex := Free |})
    end.
Proof. destruct c; reflexivity. Qed.
End GetAgainstSet.

(** X10.  A [get] issued together with a [set] of the same key observes
    the value the key had before or the value being set, nothing else;
    whichever it is, once both have settled the cache holds the new value
    and is otherwise as before. *)
Theorem get_against_set_sees_old_or_new `{Countable K}
    (m : gmap K value) (key : K) (v : value)
    (schedule : list nat) (w : Scheduler.world JsError (ThreadSafeCache.t K) value) :
  let bodies := [CacheCalls.body (CacheCalls.CacheGet key);
                 CacheCalls.body (CacheCalls.CacheSet key v)] in
  Scheduler.exec bodies schedule
    (Scheduler.init bodies {| cache := m; ThreadSafeCache.mutex := Free |}) = Some w →
  Scheduler.all_settled w = true →
  Scheduler.store w = {| cache := <[key := v]> m; ThreadSafeCache.mutex := Free |}
  ∧ (Scheduler.tasks w
     = [Scheduler.Settled (Return (Map_get m key)); Scheduler.Settled (Return VUndefined)]
     ∨ Scheduler.tasks w
       = [Scheduler.Settled (Return v); Scheduler.Settled (Return VUndefined)]).
Proof.
  intros bodies Hexec Hall.
  assert (Hlaw : ∀ l (s : ThreadSafeCache.t K), the_mutex (with_mutex l s) = l) by done.
  destruct (interleaving_is_serial Hlaw bodies schedule
              (Scheduler.init bodies {| cache := m; ThreadSafeCache.mutex := Free |}) w)
    as (order & _ & Hserial);
    [ | exact Hexec | by apply all_settled_between_calls | ].
  { split; [done|]. by repeat constructor. }
  pose proof (serial_all_settled _ _ _ _ Hserial Hall) as Hperm.
  apply Permutation_sym, Permutation_length_2_inv in Hperm as [-> | ->];
    cbn [Scheduler.serial] in Hserial.
  - rewrite (serve_unfold bodies 0 (CacheCalls.body (CacheCalls.CacheGet key)))
      in Hserial by done.
    cbn [Scheduler.store Scheduler.tasks Scheduler.init] in Hserial.
    rewrite cache_guarded_body in Hserial. cbn [fst snd] in Hserial.
    rewrite (serve_unfold bodies 1 (CacheCalls.body (CacheCalls.CacheSet key v)))
      in Hserial by done.
    cbn [Scheduler.store Scheduler.tasks] in Hserial.
    rewrite cache_guarded_body in Hserial. injection Hserial as <-. auto.
  - rewrite (serve_unfold bodies 1 (CacheCalls.body (CacheCalls.CacheSet key v)))
      in Hserial by done.
    cbn [Scheduler.store Scheduler.tasks Scheduler.init] in Hserial.
    rewrite cache_guarded_body in Hserial. cbn [fst snd] in Hserial.
    rewrite (serve_unfold bodies 0 (CacheCalls.body (CacheCalls.CacheGet key)))
      in Hserial by done.
    cbn [Scheduler.store Scheduler.tasks] in Hserial.
    rewrite cache_guarded_body, lookup_insert_eq in Hserial.
    injection Hserial as <-. auto.
Qed.

Lemma get_against_set_sees_old_or_new_witness :
  let bodies := [CacheCalls.body (CacheCalls.CacheGet "k");
                 CacheCalls.body (CacheCalls.CacheSet "k" (VString "v2"))] in
  let w := {| Scheduler.store :=
                {| cache := <["k" := VString "v2"]> {["k" := VString "v1"]};
                   ThreadSafeCache.mutex := Free |};
              Scheduler.tasks := [Scheduler.Settled (Return (VString "v2"));
                                  Scheduler.Settled (Return VUndefined)] |} in
  Scheduler.exec bodies [1; 1; 0; 0]%nat
    (Scheduler.init bodies {| cache := {["k" := VString "v1"]};
                              ThreadSafeCache.mutex := Free |}) = Some w
  ∧ Scheduler.store w
    = {| cache := <["k" := VString "v2"]> {["k" := VString "v1"]};
         ThreadSafeCache.mutex := Free |}.
Proof.
  intros bodies w.
  assert (Hexec : Scheduler.exec bodies [1; 1; 0; 0]%nat
                    (Scheduler.init bodies {| cache := {["k" := VString "v1"]};
                                              ThreadSafeCache.mutex := Free |}) = Some w)
    by (vm_compute; reflexivity).
  split; [exact Hexec|].
  exact (proj1 (get_against_set_sees_old_or_new {["k" := VString "v1"]} "k" (VString "v2")
                  _ w Hexec eq_refl)).
Defined.

(** ** Reservations that fit, in any interleaving *)

Section ReservationsThatFit.
Import Scheduler Reservations.
Context `{Countable K}.
Variable p : K.

Abbreviation status := (Scheduler.status JsError (ThreadSafeInventory.t K Z) bool).






Abbreviation bodies quantities := (reserveStock_body (K := K) p <$> quantities).



End ReservationsThatFit.



(** ** What interleaved increments return *)

Section ResultsOfIncrements.
Import Increments IncrementResults.







End ResultsOfIncrements.



(** ** What [unsafeIncrement] can and cannot lose *)

Section UnsafeCounting.
Import UnsafeIncrement UnsafeCounts.

Lemma unsafe_init_invariant (n : nat) : invariant (init n).
Proof.
  assert (Hzero : sum_list_with completed (replicate n Start) = 0%nat)
    by (rewrite sum_list_with_replicate; unfold completed; simpl; lia).
  split; unfold init; cbn [tasks sharedCounter]; rewrite ?Hzero; [lia | lia |].
  intros i current Hi. apply lookup_replicate in Hi as [? _]. discriminate.
Qed.

Lemma unsafe_step_invariant (i : nat) (w w' : world) :
  invariant w → step i w = Some w' → invariant w'.
Proof.
  intros [Hcounter Hpositive Hread] Hstep. unfold step in Hstep.
  destruct (tasks w !! i) as [p|] eqn:Hi; [|discriminate].
  assert (Hat : ∀ q r, <[i := r]> (tasks w) !! i = Some q → q = r).
  { intros q r. rewrite list_lookup_insert_eq by by eapply lookup_lt_Some. congruence. }
  destruct p as [|current|result]; [| |discriminate]; injection Hstep as <-.
  - pose proof (sum_list_with_insert completed _ _ _ (Sleeping (sharedCounter w)) Hi) as Hsum.
    change (completed Start) with 0%nat in Hsum.
    change (completed (Sleeping (sharedCounter w))) with 0%nat in Hsum.
    split; simpl.
    + lia.
    + intros Hpos. apply Hpositive. lia.
    + intros j c Hj. destruct (decide (j = i)) as [->|Hne].
      * apply Hat in Hj. injection Hj as ->. lia.
      * rewrite list_lookup_insert_ne in Hj by done. specialize (Hread _ _ Hj). lia.
  - pose proof (sum_list_with_insert completed _ _ _ (Done (current + 1)) Hi) as Hsum.
    change (completed (Sleeping current)) with 0%nat in Hsum.
    change (completed (Done (current + 1))) with 1%nat in Hsum.
    specialize (Hread _ _ Hi) as Hcurrent.
    split; simpl.
    + lia.
    + lia.
    + intros j c Hj. destruct (decide (j = i)) as [->|Hne].
      * by apply Hat in Hj.
      * rewrite list_lookup_insert_ne in Hj by done. specialize (Hread _ _ Hj). lia.
Qed.

Lemma unsafe_exec_invariant (schedule : list nat) (w w' : world) :
  invariant w → exec schedule w = Some w' →
  invariant w' ∧ length (tasks w') = length (tasks w).
Proof.
  revert w. induction schedule as [|i rest IH]; intros w Hinv Hexec; simpl in Hexec.
  - by injection Hexec as <-.
  - destruct (step i w) as [w1|] eqn:Hstep; [|discriminate].
    destruct (IH w1) as [Hinv' Hlen]; [by eapply unsafe_step_invariant | done |].
    split; [done|]. rewrite Hlen. unfold step in Hstep.
    destruct (tasks w !! i) as [[| |]|]; try discriminate;
      injection Hstep as <-; apply length_insert.
Qed.

Lemma done_at_most_length (l : list pc) : (sum_list_with completed l ≤ length l)%nat.
Proof. induction l as [|p l IH]; simpl; [lia|]. unfold completed at 1. destruct (is_done p); lia. Qed.

Lemma done_all (l : list pc) :
  forallb is_done l = true → sum_list_with completed l = length l.
Proof.
  induction l as [|p l IH]; simpl; [done|].
  intros [Hp Hl]%andb_prop. unfold completed at 1. rewrite Hp, IH by done. done.
Qed.

(** All calls read, one after the other, before any of them writes. *)
Lemma all_read (pre : list pc) (m : nat) (c : Z) :
  exec (seq (length pre) m) {| sharedCounter := c; tasks := pre ++ replicate m Start |}
  = Some {| sharedCounter := c; tasks := pre ++ replicate m (Sleeping c) |}.
Proof.
  revert pre. induction m as [|m IH]; intros pre; [done|].
  simpl. unfold step. simpl. rewrite list_lookup_middle by done.
  rewrite insert_app_r_alt, Nat.sub_diag by done. simpl.
  specialize (IH (pre ++ [Sleeping c])).
  rewrite length_app, Nat.add_1_r, <- !app_assoc in IH. exact IH.
Qed.

Lemma all_write (pre : list pc) (m : nat) (c : Z) :
  exec (seq (length pre) (S m))
    {| sharedCounter := c; tasks := pre ++ replicate (S m) (Sleeping 0) |}
  = Some {| sharedCounter := 1; tasks := pre ++ replicate (S m) (Done 1) |}.
Proof.
  revert pre c. induction m as [|m IH]; intros pre c.
  - simpl. unfold step. simpl. rewrite list_lookup_middle by done.
    by rewrite insert_app_r_alt, Nat.sub_diag by done.
  - change (seq (length pre) (S (S m)))
      with (length pre :: seq (S (length pre)) (S m)).
    change (replicate (S (S m)) (Sleeping 0))
      with (Sleeping 0 :: replicate (S m) (Sleeping 0)).
    cbn [exec]. unfold step at 1. cbn [tasks sharedCounter].
    rewrite list_lookup_middle by done.
    rewrite insert_app_r_alt, Nat.sub_diag by done. cbn [insert list_insert].
    specialize (IH (pre ++ [Done 1]) 1).
    rewrite length_app, Nat.add_1_r, <- !app_assoc in IH. exact IH.
Qed.

(** Each call reads and writes before the next one starts. *)
Lemma one_after_the_other (pre : list pc) (m : nat) (c : Z) :
  forallb is_done pre = true →
  ∃ w, exec (seq (length pre) m ≫= (λ i, [i; i]))
         {| sharedCounter := c; tasks := pre ++ replicate m Start |} = Some w
       ∧ sharedCounter w = c + Z.of_nat m ∧ all_done w = true.
Proof.
  revert pre c. induction m as [|m IH]; intros pre c Hpre.
  - eexists. split; [reflexivity|]. simpl. split; [lia|].
    unfold all_done. simpl. by rewrite app_nil_r.
  - destruct (IH (pre ++ [Done (c + 1)]) (c + 1)) as (w & Hexec & Hcounter & Hdone).
    { rewrite forallb_app, Hpre. done. }
    exists w. split; [|split; [lia | done]].
    rewrite length_app, Nat.add_1_r, <- !app_assoc in Hexec.
    change (seq (length pre) (S m) ≫= (λ i, [i; i]))
      with (length pre :: length pre :: (seq (S (length pre)) m ≫= (λ i, [i; i]))).
    change (replicate (S m) Start) with (Start :: replicate m Start).
    cbn [exec]. unfold step at 1. cbn [tasks sharedCounter].
    rewrite list_lookup_middle by done.
    rewrite insert_app_r_alt, Nat.sub_diag by done. cbn [insert list_insert].
    unfold step at 1. cbn [tasks sharedCounter].
    rewrite list_lookup_middle by done.
    rewrite insert_app_r_alt, Nat.sub_diag by done. cbn [insert list_insert].
    exact Hexec.
Qed.
End UnsafeCounting.

(** X13.  [unsafeIncrement] can lose updates but cannot invent them: on
    every schedule the shared counter is at most the number of calls that
    have completed, and once all of [n] calls (at least one) have
    completed it lies between 1 and [n]. *)
Theorem unsafeIncrement_never_overcounts
    (n : nat) (schedule : list nat) (w : UnsafeIncrement.world) :
  UnsafeIncrement.exec schedule (UnsafeIncrement.init n) = Some w →
  0 ≤ UnsafeIncrement.sharedCounter w
  ≤ Z.of_nat (sum_list_with UnsafeCounts.completed (UnsafeIncrement.tasks w))
  ∧ (sum_list_with UnsafeCounts.completed (UnsafeIncrement.tasks w) ≤ n)%nat
  ∧ (UnsafeCounts.all_done w = true → (0 < n)%nat →
     1 ≤ UnsafeIncrement.sharedCounter w ≤ Z.of_nat n).
Proof.
  intros Hexec.
  destruct (unsafe_exec_invariant _ _ _ (unsafe_init_invariant n) Hexec)
    as [[Hcounter Hpositive Hread] Hlen].
  simpl in Hlen. rewrite length_replicate in Hlen.
  pose proof (done_at_most_length (UnsafeIncrement.tasks w)) as Hle.
  split; [done|]. split; [lia|].
  intros Hdone Hn. unfold UnsafeCounts.all_done in Hdone.
  rewrite (done_all _ Hdone) in Hcounter, Hpositive. split; [apply Hpositive|]; lia.
Qed.

Lemma unsafeIncrement_never_overcounts_witness :
  1 ≤ UnsafeIncrement.sharedCounter
        {| UnsafeIncrement.sharedCounter := 2;
           UnsafeIncrement.tasks := [UnsafeIncrement.Done 1; UnsafeIncrement.Done 2;
                                     UnsafeIncrement.Done 1] |}
  ≤ Z.of_nat 3.
Proof.
  refine (proj2 (proj2 (unsafeIncrement_never_overcounts 3 [0; 2; 0; 1; 2; 1]%nat _ _)) _ _).
  - reflexivity.
  - reflexivity.
  - lia.
Defined.

(** X14.  Both ends of that range are reached, for every number of calls:
    if all [n] calls read the counter before any of them writes, every
    one of them returns 1 and the counter ends at 1; if each call finishes
    before the next begins, the counter ends at [n]. *)
Theorem unsafeIncrement_loses_all_but_one_or_nothing (n : nat) :
  (0 < n)%nat →
  UnsafeIncrement.exec (seq 0 n ++ seq 0 n) (UnsafeIncrement.init n)
  = Some {| UnsafeIncrement.sharedCounter := 1;
            UnsafeIncrement.tasks := replicate n (UnsafeIncrement.Done 1) |}
  ∧ ∃ w, UnsafeIncrement.exec (seq 0 n ≫= (λ i, [i; i])) (UnsafeIncrement.init n) = Some w
         ∧ UnsafeIncrement.sharedCounter w = Z.of_nat n
         ∧ UnsafeCounts.all_done w = true.
Proof.
  intros Hn. split.
  - destruct n as [|n]; [lia|].
    assert (Happ : ∀ s1 s2 w0 w1,
               UnsafeIncrement.exec s1 w0 = Some w1 →
               UnsafeIncrement.exec (s1 ++ s2) w0 = UnsafeIncrement.exec s2 w1).
    { induction s1 as [|i s1 IH]; intros s2 w0 w1 Hexec; simpl in *.
      - by injection Hexec as <-.
      - destruct (UnsafeIncrement.step i w0); [by apply IH | done]. }
    rewrite (Happ _ _ _ _ (all_read [] (S n) 0)).
    apply (all_write [] n 0).
  - destruct (one_after_the_other [] n 0 eq_refl) as (w & Hexec & Hcounter & Hdone).
    exists w. split; [done|]. split; [lia | done].
Qed.

Lemma unsafeIncrement_loses_all_but_one_or_nothing_witness :
  UnsafeIncrement.exec [0; 1; 2; 0; 1; 2]%nat (UnsafeIncrement.init 3)
  = Some {| UnsafeIncrement.sharedCounter := 1;
            UnsafeIncrement.tasks := replicate 3 (UnsafeIncrement.Done 1) |}.
Proof.
  refine (proj1 (unsafeIncrement_loses_all_but_one_or_nothing 3 _)). lia.
Defined.

(** ** The worker-thread counter *)

Section WorkerThread.
Import WorkerThreadCounter.

Abbreviation increments inbox :=
  (Z.of_nat (length (filter (λ message, message = VString "INCREMENT") inbox))).

Lemma worker_receive_cons (message : value) (inbox : list value) (w : worker_side) :
  worker_receive (message :: inbox) w = worker_receive inbox (on_message message w).
Proof. reflexivity. Qed.

Lemma worker_receive_replies (inbox : list value) (w : worker_side) :
  worker_receive inbox w
  = {| safeCounter := safeCounter w + increments inbox;
       to_parent := to_parent w ++ (VNumber <$> seqZ (safeCounter w + 1) (increments inbox)) |}.
Proof.
  revert w. induction inbox as [|message inbox IH]; intros [c out].
  - simpl. rewrite Z.add_0_r, app_nil_r. done.
  - rewrite worker_receive_cons, IH. unfold on_message.
    rewrite filter_cons. destruct (decide (message = VString "INCREMENT")) as [->|Hne].
    + simpl safeCounter. simpl to_parent. simpl length.
      rewrite (seqZ_cons (c + 1) (Z.of_nat (S _))) by lia.
      rewrite Nat2Z.inj_succ, Z.pred_succ, <- app_assoc. simpl.
      replace (Z.succ (c + 1)) with (c + 1 + 1) by lia. f_equal. lia.
    + done.
Qed.

Lemma repeat_increment (k : nat) (posted : list value) :
  repeat_call k increment {| worker := Some posted |}
  = (Return (), {| worker := Some (posted ++ replicate k (VString "INCREMENT")) |}).
Proof.
  revert posted. induction k as [|k IH]; intros posted; simpl.
  - by rewrite app_nil_r.
  - unfold mbind, M_bind, bind. simpl. rewrite IH.
    by rewrite <- app_assoc.
Qed.

Lemma increments_replicate (k : nat) :
  increments (replicate k (VString "INCREMENT")) = Z.of_nat k.
Proof.
  induction k as [|k IH]; [done|]. simpl replicate. rewrite filter_cons_True by done.
  simpl length. lia.
Qed.

Lemma on_count_all (console : list (string * value)) (counts : list value) :
  foldl on_count console counts
  = console ++ ((λ count, ("Current count:"%string, count)) <$> counts).
Proof.
  revert console. induction counts as [|count counts IH]; intros console; simpl.
  - by rewrite app_nil_r.
  - rewrite IH. unfold on_count. by rewrite <- app_assoc.
Qed.
End WorkerThread.

(** X15.  The worker counts the 'INCREMENT' messages and nothing else:
    given any messages in any order, it ends with its counter raised by
    the number of 'INCREMENT's among them and has posted to its parent,
    one after the other, each value the counter passed through; a message
    that is not exactly the string 'INCREMENT' leaves no trace. *)
Theorem worker_counts_increment_messages
    (inbox : list value) (w : WorkerThreadCounter.worker_side) :
  let k := Z.of_nat (length (filter (λ message, message = VString "INCREMENT") inbox)) in
  WorkerThreadCounter.worker_receive inbox w
  = {| WorkerThreadCounter.safeCounter := WorkerThreadCounter.safeCounter w + k;
       WorkerThreadCounter.to_parent :=
         WorkerThreadCounter.to_parent w
         ++ (VNumber <$> seqZ (WorkerThreadCounter.safeCounter w + 1) k) |}
  ∧ WorkerThreadCounter.worker_receive inbox w
    = WorkerThreadCounter.worker_receive
        (filter (λ message, message = VString "INCREMENT") inbox) w.
Proof.
  intros k. subst k. split; [apply worker_receive_replies|].
  rewrite !worker_receive_replies. by rewrite list_filter_filter_r.
Qed.

(** X16.  On the main thread, [k] calls of [increment] make the console
    show "Current count:" 1, 2, ..., [k], in this order: each call posts
    one 'INCREMENT', the worker answers each with its new count, and the
    listener logs each answer.  An object constructed off the main thread
    has no worker: its [increment] throws a TypeError and posts
    nothing. *)
Theorem worker_thread_counter_logs_each_count (k : nat) :
  (∃ posted,
     WorkerThreadCounter.repeat_call k WorkerThreadCounter.increment
       (WorkerThreadCounter.new true)
     = (Return (), {| WorkerThreadCounter.worker := Some posted |})
     ∧ foldl WorkerThreadCounter.on_count []
         (WorkerThreadCounter.to_parent
            (WorkerThreadCounter.worker_receive posted WorkerThreadCounter.worker_start))
       = (λ n, ("Current count:"%string, VNumber n)) <$> seqZ 1 (Z.of_nat k))
  ∧ WorkerThreadCounter.increment (WorkerThreadCounter.new false)
    = (Throw WorkerThreadCounter.TypeError, WorkerThreadCounter.new false).
Proof.
  split; [|reflexivity].
  exists (replicate k (VString "INCREMENT")). split.
  - apply (repeat_increment k []).
  - rewrite worker_receive_replies, increments_replicate, on_count_all. simpl.
    by rewrite <- list_fmap_compose.
Qed.
